(** * Access reconciliation of the reports analyzer

    A shallow embedding of the data layer of the two Streamlit pages
    ([pages/access_export.py] and [Home.py]): the membership resolver
    [get_user_groups], the access resolvers [get_group_accesses],
    [get_public_accesses], [get_user_accesses], the reconciliation
    [find_extra_accesses], the numerical part of
    [generate_summary_stats] and the processing part of [main].

    Modelling conventions.
    - A Python [str] is a [string]; its characters are the code points
      below 256.
    - A table cell of a text column is either the missing value ([NaN],
      what [pd.read_csv] stores for an empty field) or a string; the
      columns have the [object] dtype of text columns.  The missing
      value is one value, also when it is used as a key.
    - A [dict] is a [gmap], a [set] is a [gset]; the order of iteration
      of a [dict] or of a [set] is not observed by anything proved here.
    - A Python exception is the [Raise] outcome of the [result] monad;
      the messages passed to [st.error] and [st.success] are collected
      in the [shown] component of a [run].
    - [pd.read_csv] and the drawing of the dashboard are not modelled:
      the functions start from loaded frames. *)

From Stdlib Require Import String Ascii List ZArith QArith Lia.
From stdpp Require Import base option list gmap strings fin_maps fin_sets sets
  sorting.

Set Warnings "-clear-no-such-hyp".

(** ** Cells and data frames *)

Inductive cell : Type :=
  | NaN
  | Str (s : string).

#[global] Instance cell_eq_dec : EqDecision cell.
Proof. solve_decision. Defined.

Definition cell_to_option (c : cell) : option string :=
  match c with NaN => None | Str s => Some s end.

Definition cell_of_option (o : option string) : cell :=
  match o with None => NaN | Some s => Str s end.

#[global] Instance cell_countable : Countable cell.
Proof.
  refine (inj_countable' cell_to_option cell_of_option _).
  intros []; reflexivity.
Defined.

(** [pd.notna] *)
Definition notna (c : cell) : bool :=
  match c with NaN => false | Str _ => true end.

(** [str(x)] on a cell *)
Definition str (c : cell) : string :=
  match c with NaN => "nan" | Str s => s end.

(** Truth value of a Python string: [if s:] *)
Definition truthy (s : string) : bool :=
  match s with EmptyString => false | String _ _ => true end.

(** A frame has its column labels and its rows; a row gives the cell
    under every label (only the labels in [columns] are ever read). *)
Record DataFrame : Type := {
  columns : list string;
  rows : list (string → cell)
}.

(** One row as handed out by [df.iterrows()]: the cells with the frame's
    column labels as index. *)
Record Series : Type := {
  index : list string;
  at_label : string → cell
}.

Definition iterrows (df : DataFrame) : list Series :=
  map (λ r, {| index := columns df; at_label := r |}) (rows df).

(** ** Exceptions and displayed messages *)

Inductive exn : Type :=
  | KeyError (key : string)
  | ZeroDivisionError.

Inductive result (A : Type) : Type :=
  | Ok (a : A)
  | Raise (e : exn).
Arguments Ok {A} a.
Arguments Raise {A} e.

#[global] Instance result_ret : MRet result := @Ok.
#[global] Instance result_bind : MBind result :=
  λ A B f m, match m with Ok a => f a | Raise e => Raise e end.

(** [row[col]] *)
Definition getitem (row : Series) (col : string) : result cell :=
  if bool_decide (col ∈ index row) then Ok (at_label row col)
  else Raise (KeyError col).

(** [for x in l: body], the loop's variables threaded as [s]. *)
Fixpoint for_each {A S : Type} (body : A → S → result S) (l : list A) (s : S)
    : result S :=
  match l with
  | [] => Ok s
  | x :: l' => s' ← body x s; for_each body l' s'
  end.

(** What a computation leaves on the page together with its outcome. *)
Record run (A : Type) : Type := Run {
  outcome : result A;
  shown : list string
}.
Arguments Run {A} outcome shown.
Arguments outcome {A} r.
Arguments shown {A} r.

#[global] Instance run_ret : MRet run := λ A a, Run (Ok a) [].
#[global] Instance run_bind : MBind run :=
  λ A B f m,
    match outcome m with
    | Ok a => let r := f a in Run (outcome r) (shown m ++ shown r)
    | Raise e => Run (Raise e) (shown m)
    end.

Definition lift {A : Type} (r : result A) : run A := Run r [].
Definition st_error (msg : string) : run unit := Run (Ok tt) [msg].
Definition st_success (msg : string) : run unit := Run (Ok tt) [msg].

(** ** [re.split(r'[,\s]+', s)] *)

(** [\s] of a [str] pattern, on the code points below 256: TAB, LF, VT,
    FF, CR, the separators FS GS RS US, SPACE, NEL and NBSP. *)
Definition is_space (c : ascii) : bool :=
  let n := nat_of_ascii c in
  ((9 <=? n) && (n <=? 13)) || ((28 <=? n) && (n <=? 32))
  || (n =? 133) || (n =? 160).

(** The character class [[,\s]]. *)
Definition is_sep (c : ascii) : bool :=
  Ascii.eqb c ","%char || is_space c.

(** The pieces between the matches of [[,\s]+].  A match is a maximal
    run of separators; [in_match] tells that the previous character
    belongs to the match being read.  The piece before a match is closed
    when the match starts, empty pieces included, as [re.split] does at
    the ends of the string. *)
Fixpoint split_from (in_match : bool) (s : string) : list string :=
  match s with
  | EmptyString => [EmptyString]
  | String c s' =>
      if is_sep c then
        if in_match then split_from true s'
        else EmptyString :: split_from true s'
      else
        match split_from false s' with
        | p :: ps => String c p :: ps
        | [] => [String c EmptyString]
        end
  end.

Definition re_split (s : string) : list string := split_from false s.

(** [[g for g in additional_groups if g]] *)
Definition nonempty_pieces (s : string) : list string :=
  List.filter truthy (re_split s).

(** ** Pieces shared by the two pages *)

(** [len(x)] *)
Definition len {C : Type} `{Size C} (x : C) : Z := Z.of_nat (size x).

(** [access = row['VHFROM'] if pd.notna(row['VHFROM']) else None] *)
Definition access_of (v : cell) : option string :=
  if notna v then Some (str v) else None.

(** [if key not in d: d[key] = set()] followed by
    [if access: d[key].add(access)] *)
Definition record_access (key : cell) (access : option string)
    (d : gmap cell (gset string)) : gmap cell (gset string) :=
  let d1 := match d !! key with None => <[key := ∅]> d | Some _ => d end in
  match access with
  | Some a => if truthy a then alter (λ s, s ∪ {[a]}) key d1 else d1
  | None => d1
  end.

(** [df[col]] *)
Definition getcolumn (df : DataFrame) (col : string) : result (list cell) :=
  if bool_decide (col ∈ columns df) then Ok (map (λ r, r col) (rows df))
  else Raise (KeyError col).

(** [df[mask]] for a boolean mask aligned with the rows *)
Definition select_rows (df : DataFrame) (mask : list bool) : DataFrame :=
  {| columns := columns df;
     rows := map fst (List.filter snd (combine (rows df) mask)) |}.

(** [x.startswith(prefix)] under [.str], with the [na] fill value *)
Definition str_startswith (prefix : string) (na : bool) (c : cell) : bool :=
  match c with NaN => na | Str s => String.prefix prefix s end.

(** Element-wise [column == s]; a missing value equals nothing. *)
Definition cell_eq_str (s : string) (c : cell) : bool :=
  bool_decide (c = Str s).

Definition required_columns : list string :=
  ["USER_NAME"; "MAIN_GROUP"; "ADDL_GROUP"].

(** The first required column that the frame lacks: the column at which
    the checking loop stops. *)
Definition first_missing (df : DataFrame) : option string :=
  List.find (λ col, negb (bool_decide (col ∈ columns df))) required_columns.

Definition missing_column_message (col : string) : string :=
  "Missing required column: " +:+ col +:+ ". Please check your file.".

(** [groups.extend([g for g in re.split(..., str(addl)) if g])], done
    only when the cell is not missing *)
Definition extend_with_additional (addl : cell) (groups : list cell)
    : list cell :=
  if notna addl then groups ++ map Str (nonempty_pieces (str addl))
  else groups.

(** ** The export page, [pages/access_export.py] *)

Module AccessExport.

Definition get_user_groups_row (row : Series)
    (user_groups : gmap cell (gset cell)) : result (gmap cell (gset cell)) :=
  main ← getitem row "MAIN_GROUP";
  user ← getitem row "USER_NAME";
  let groups := if notna main then [user; main] else [user] in
  addl ← getitem row "ADDL_GROUP";
  let groups := extend_with_additional addl groups in
  Ok (<[user := list_to_set groups]> user_groups).

Definition get_user_groups (df : DataFrame) : run (gmap cell (gset cell)) :=
  match first_missing df with
  | Some col => st_error (missing_column_message col);; mret ∅
  | None => lift (for_each get_user_groups_row (iterrows df) ∅)
  end.

Definition get_user_accesses_row (row : Series)
    (user_accesses : gmap cell (gset string))
    : result (gmap cell (gset string)) :=
  user ← getitem row "JNUSER";
  v ← getitem row "VHFROM";
  Ok (record_access user (access_of v) user_accesses).

Definition get_user_accesses (df : DataFrame)
    : result (gmap cell (gset string)) :=
  for_each get_user_accesses_row (iterrows df) ∅.

End AccessExport.

(** ** The home page, [Home.py] *)

Module Home.

Definition get_user_groups_row (row : Series)
    (user_groups : gmap cell (gset cell)) : result (gmap cell (gset cell)) :=
  main ← getitem row "MAIN_GROUP";
  let groups := if notna main then [main] else [] in
  addl ← getitem row "ADDL_GROUP";
  let groups := extend_with_additional addl groups in
  user ← getitem row "USER_NAME";
  Ok (<[user := list_to_set groups]> user_groups).

Definition get_user_groups (df : DataFrame) : run (gmap cell (gset cell)) :=
  match first_missing df with
  | Some col => st_error (missing_column_message col);; mret ∅
  | None => lift (for_each get_user_groups_row (iterrows df) ∅)
  end.

Definition get_group_accesses_row (row : Series)
    (group_accesses : gmap cell (gset string))
    : result (gmap cell (gset string)) :=
  group ← getitem row "JNUSER";
  v ← getitem row "VHFROM";
  Ok (record_access group (access_of v) group_accesses).

Definition get_group_accesses (df : DataFrame)
    : result (gmap cell (gset string)) :=
  subjects ← getcolumn df "JNUSER";
  let group_rows := select_rows df (map (str_startswith "GR" false) subjects) in
  for_each get_group_accesses_row (iterrows group_rows) ∅.

Definition get_public_accesses_row (row : Series)
    (public_accesses : gset string) : result (gset string) :=
  v ← getitem row "VHFROM";
  Ok (match access_of v with
      | Some access =>
          if truthy access then public_accesses ∪ {[access]}
          else public_accesses
      | None => public_accesses
      end).

Definition get_public_accesses (df : DataFrame) : result (gset string) :=
  subjects ← getcolumn df "JNUSER";
  let public_rows := select_rows df (map (cell_eq_str "*PUBLIC") subjects) in
  for_each get_public_accesses_row (iterrows public_rows) ∅.

Definition get_user_accesses_row (row : Series)
    (user_accesses : gmap cell (gset string))
    : result (gmap cell (gset string)) :=
  user ← getitem row "JNUSER";
  v ← getitem row "VHFROM";
  let access := access_of v in
  if bool_decide (user = Str "*PUBLIC") then Ok user_accesses
  else Ok (record_access user access user_accesses).

Definition get_user_accesses (df : DataFrame)
    : result (gmap cell (gset string)) :=
  for_each get_user_accesses_row (iterrows df) ∅.

(** The inner loop of [find_extra_accesses]:
    [for group in groups: if group in group_accesses: ...update(...)] *)
Definition add_group_access (group_accesses : gmap cell (gset string))
    (group : cell) (all_expected_accesses : gset string) : gset string :=
  match group_accesses !! group with
  | Some accesses => all_expected_accesses ∪ accesses
  | None => all_expected_accesses
  end.

Definition expected_accesses (group_accesses : gmap cell (gset string))
    (public_accesses : gset string) (groups : gset cell) : gset string :=
  set_fold (add_group_access group_accesses) public_accesses groups.

Definition find_extra_accesses
    (user_groups : gmap cell (gset cell))
    (user_accesses group_accesses : gmap cell (gset string))
    (public_accesses : gset string) : gmap cell (gset string) :=
  map_fold
    (λ user groups extra_accesses,
       let all_expected_accesses :=
         expected_accesses group_accesses public_accesses groups in
       let actual_accesses := default ∅ (user_accesses !! user) in
       let extra := actual_accesses ∖ all_expected_accesses in
       if negb (len extra =? 0)%Z then <[user := extra]> extra_accesses
       else extra_accesses)
    ∅ user_groups.

(** [x / y] on integers; the quotient is kept exact (the rounding to a
    float is not modelled). *)
Definition truediv (x y : Z) : result Q :=
  if (y =? 0)%Z then Raise ZeroDivisionError
  else Ok (inject_Z x / inject_Z y)%Q.

(** [sum(len(v) for v in d.values())] *)
Definition sum_len {V : Type} `{Size V} (d : gmap cell V) : Z :=
  map_fold (λ _ v acc, acc + len v)%Z 0%Z d.

(** [sum(...) / len(d) if d else 0] *)
Definition average {V : Type} `{Size V} (d : gmap cell V) : result Q :=
  if negb (len d =? 0)%Z then truediv (sum_len d) (len d) else Ok 0%Q.

(** The union of all the values of [d], as [set().union] of the list of
    [d.values()] computes it. *)
Definition union_values (d : gmap cell (gset string)) : gset string :=
  ⋃ (snd <$> map_to_list d).

(** The numbers of [stats]; the two [most_common] entries, whose order
    among ties follows the iteration order of sets, are left out. *)
Record Stats : Type := {
  total_users : Z;
  total_groups : Z;
  users_with_extra_access : Z;
  total_unique_accesses : Z;
  public_accesses_count : Z;
  avg_group_per_user : Q;
  avg_access_per_user : Q;
  avg_access_per_group : Q
}.

Definition generate_summary_stats
    (user_groups : gmap cell (gset cell))
    (user_accesses group_accesses extra_accesses : gmap cell (gset string))
    (public_accesses : gset string) : result Stats :=
  avg_group ← average user_groups;
  avg_access ← average user_accesses;
  avg_access_group ← average group_accesses;
  Ok {| total_users := len user_groups;
        total_groups := len group_accesses;
        users_with_extra_access := len extra_accesses;
        total_unique_accesses := len (union_values user_accesses);
        public_accesses_count := len public_accesses;
        avg_group_per_user := avg_group;
        avg_access_per_user := avg_access;
        avg_access_per_group := avg_access_group |}.

(** What [main] has computed when it starts to draw the dashboard. *)
Record Analysis : Type := {
  an_user_groups : gmap cell (gset cell);
  an_group_accesses : gmap cell (gset string);
  an_user_accesses : gmap cell (gset string);
  an_public_accesses : gset string;
  an_extra_accesses : gmap cell (gset string);
  an_stats : Stats
}.

(** The processing part of [main], entered once both files are loaded:
    from [st.success] to the call of [generate_summary_stats]. *)
Definition main_analysis (user_groups_df master_users_groups_df : DataFrame)
    : run Analysis :=
  st_success "Files loaded successfully!";;
  user_groups ← get_user_groups user_groups_df;
  group_accesses ← lift (get_group_accesses master_users_groups_df);
  user_accesses ← lift (get_user_accesses master_users_groups_df);
  public_accesses ← lift (get_public_accesses master_users_groups_df);
  let extra_accesses :=
    find_extra_accesses user_groups user_accesses group_accesses
      public_accesses in
  stats ← lift (generate_summary_stats user_groups user_accesses
                  group_accesses extra_accesses public_accesses);
  mret {| an_user_groups := user_groups;
          an_group_accesses := group_accesses;
          an_user_accesses := user_accesses;
          an_public_accesses := public_accesses;
          an_extra_accesses := extra_accesses;
          an_stats := stats |}.

End Home.

(** ** Frames written out row by row *)

(** The row whose cells are listed; any other label reads as missing. *)
Definition mkrow (cells : list (string * cell)) : string → cell :=
  λ col, match List.find (λ p, String.eqb (fst p) col) cells with
         | Some p => snd p
         | None => NaN
         end.

Definition membership_frame (l : list (cell * cell * cell)) : DataFrame :=
  {| columns := required_columns;
     rows := map (λ '(u, m, a),
                    mkrow [("USER_NAME", u); ("MAIN_GROUP", m);
                           ("ADDL_GROUP", a)]) l |}.

Definition access_frame (l : list (cell * cell)) : DataFrame :=
  {| columns := ["JNUSER"; "VHFROM"];
     rows := map (λ '(s, a), mkrow [("JNUSER", s); ("VHFROM", a)]) l |}.


(** ** The tokens of the additional-groups field, as the specification
    words them *)

(** No character of [t] is a comma or a white space. *)
Fixpoint sep_free (t : string) : Prop :=
  match t with
  | EmptyString => True
  | String c t' => is_sep c = false ∧ sep_free t'
  end.

(** What follows a token: nothing, or a separator. *)
Definition sep_first (post : string) : Prop :=
  match post with
  | EmptyString => True
  | String c _ => is_sep c = true
  end.

(** What precedes a token ends with a separator. *)
Definition sep_last (pre : string) : Prop :=
  ∃ p c, pre = p +:+ String c "" ∧ is_sep c = true.

(** [t] occurs in [s] as a maximal run of characters other than comma
    and white space.  With [glued], [s] is read as the continuation of
    such a run, and a token cannot start at its first character. *)
Definition token_of (glued : bool) (s t : string) : Prop :=
  t ≠ "" ∧ sep_free t ∧
  ∃ pre post, s = pre +:+ t +:+ post ∧ sep_first post ∧
    (sep_last pre ∨ (glued = false ∧ pre = "")).

Definition is_token (s t : string) : Prop := token_of false s t.

(** The piece read from the first character: the longest separator-free
    prefix. *)
Definition head_piece (s h : string) : Prop :=
  sep_free h ∧ ∃ post, s = h +:+ post ∧ sep_first post.

(** ** Vocabulary of the statements about access tables *)

(** The subject a row names. *)
Definition subject (r : string → cell) : cell := r "JNUSER".

(** The row grants [a]: its access cell holds the non-empty string [a]. *)
Definition grants (r : string → cell) (a : string) : Prop :=
  r "VHFROM" = Str a ∧ a ≠ "".

(** The row carries no access: the cell is missing or the empty string. *)
Definition no_access (r : string → cell) : Prop :=
  r "VHFROM" = NaN ∨ r "VHFROM" = Str "".

Definition public_subject : cell := Str "*PUBLIC".

(** The subject identifier begins with the group marker. *)
Definition group_marked (k : cell) : Prop := ∃ rest, k = Str ("GR" +:+ rest).

(** Both columns of the master access table are there. *)
Definition access_columns (df : DataFrame) : Prop :=
  "JNUSER" ∈ columns df ∧ "VHFROM" ∈ columns df.

(** The frame without the rows of the public pseudo-subject. *)
Definition without_public (df : DataFrame) : DataFrame :=
  {| columns := columns df;
     rows := List.filter (λ r, negb (bool_decide (subject r = public_subject)))
               (rows df) |}.

(** The loop of the access resolvers as a fold over the rows. *)
Definition record_row (d : gmap cell (gset string)) (r : string → cell)
    : gmap cell (gset string) :=
  record_access (subject r) (access_of (r "VHFROM")) d.

Definition granted_access (r : string → cell) : option string :=
  match access_of (r "VHFROM") with
  | Some a => if truthy a then Some a else None
  | None => None
  end.

(** All that the rows of subject [k] grant. *)
Definition granted_set (k : cell) (l : list (string → cell)) : gset string :=
  list_to_set
    (omap (λ r, if bool_decide (subject r = k) then granted_access r else None) l).

(** The rows kept by a test on the subject, folded into a mapping. *)
Definition routed (q : cell → bool) (l : list (string → cell))
    : gmap cell (gset string) :=
  foldl record_row ∅ (List.filter (λ r, q (subject r)) l).

Definition not_public (k : cell) : bool :=
  negb (bool_decide (k = public_subject)).

(** ** The reconciliation as the specification words it *)

(** expected = public_access ∪ (union over the user's groups of
    group_access.get(group, ∅)) *)
Definition expected_spec (group_access : gmap cell (gset string))
    (public_access : gset string) (groups : gset cell) : gset string :=
  public_access ∪ ⋃ ((λ g, default ∅ (group_access !! g)) <$> elements groups).

(** The entry of [user] in the extra-access mapping: for a user of
    [user_groups], extra = actual − expected, kept when non-empty. *)
Definition extra_spec (user_groups : gmap cell (gset cell))
    (user_access group_access : gmap cell (gset string))
    (public_access : gset string) (user : cell) : option (gset string) :=
  match user_groups !! user with
  | Some groups =>
      let extra :=
        default ∅ (user_access !! user)
        ∖ expected_spec group_access public_access groups in
      if bool_decide (extra = ∅) then None else Some extra
  | None => None
  end.

(** ** Vocabulary of the statements about membership tables *)

(** The user a membership row names. *)
Definition user_of (r : string → cell) : cell := r "USER_NAME".

(** [g] is the row's main group, when the cell is not missing, or a
    token of its additional-groups field. *)
Definition in_resolved_groups (r : string → cell) (g : cell) : Prop :=
  (g = r "MAIN_GROUP" ∧ g ≠ NaN) ∨
  ∃ s t, r "ADDL_GROUP" = Str s ∧ is_token s t ∧ g = Str t.

(** The group list built from one row by [Home.py]. *)
Definition home_groups (r : string → cell) : list cell :=
  extend_with_additional (r "ADDL_GROUP")
    (if notna (r "MAIN_GROUP") then [r "MAIN_GROUP"] else []).

(** The group list built from one row by the export page. *)
Definition export_groups (r : string → cell) : list cell :=
  extend_with_additional (r "ADDL_GROUP")
    (if notna (r "MAIN_GROUP") then [r "USER_NAME"; r "MAIN_GROUP"]
     else [r "USER_NAME"]).

(** The loop of the membership resolvers as a fold over the rows. *)
Definition assign_groups (groups_of : (string → cell) → list cell)
    (l : list (string → cell)) : gmap cell (gset cell) :=
  foldl (λ m r, <[user_of r := list_to_set (groups_of r)]> m) ∅ l.

(** ** Sample tables *)

Definition sample_members : DataFrame :=
  membership_frame [(Str "U1", Str "A", Str "B, C D")].

Definition sample_access : DataFrame :=
  access_frame [(Str "U1", Str "X"); (Str "GR1", Str "Y");
                (Str "*PUBLIC", Str "Z"); (Str "GR2", NaN)].

(** A membership table whose rows name no user. *)
Definition anonymous_members : DataFrame :=
  membership_frame [(NaN, Str "A", NaN); (Str "", Str "B", NaN)].

(** A subject first met on a row without access, then granted one. *)
Definition late_access : DataFrame :=
  access_frame [(Str "U1", NaN); (Str "U1", Str "X")].

Definition group_only_access : DataFrame :=
  access_frame [(Str "GR1", Str "X")].

(** A membership table that lacks two of the required columns. *)
Definition headless_members : DataFrame :=
  {| columns := ["USER_NAME"];
     rows := [mkrow [("USER_NAME", Str "U1")]] |}.

(** An access table without its subject column. *)
Definition headless_access : DataFrame :=
  {| columns := ["VHFROM"];
     rows := [mkrow [("VHFROM", Str "X")]] |}.

(** ** The dashboard of [Home.py]: numbers drawn from the mappings *)

(** [create_visualizations], the two values of the pie chart:
    [values=[users_with_standard, users_with_extra]]. *)
Definition extra_access_pie_values (user_groups : gmap cell (gset cell))
    (extra_accesses : gmap cell (gset string)) : list Z :=
  let users_with_extra := len extra_accesses in
  let users_with_standard := (len user_groups - users_with_extra)%Z in
  [users_with_standard; users_with_extra].

(** One entry of [user_data], the table of the section
    "User Access Analysis". *)
Record UserRow : Type := {
  ur_User : cell;
  ur_Group_Count : Z;
  ur_Access_Count : Z;
  ur_Has_Extra_Access : bool;
  ur_Extra_Access_Count : Z
}.

Definition user_row (user_groups : gmap cell (gset cell))
    (user_accesses extra_accesses : gmap cell (gset string)) (user : cell)
    : UserRow :=
  {| ur_User := user;
     ur_Group_Count := len (default ∅ (user_groups !! user));
     ur_Access_Count := len (default ∅ (user_accesses !! user));
     ur_Has_Extra_Access := bool_decide (is_Some (extra_accesses !! user));
     ur_Extra_Access_Count := len (default ∅ (extra_accesses !! user)) |}.

(** [for user in filtered_users: user_data.append({...})] *)
Definition user_data (user_groups : gmap cell (gset cell))
    (user_accesses extra_accesses : gmap cell (gset string))
    (filtered_users : list cell) : list UserRow :=
  map (user_row user_groups user_accesses extra_accesses) filtered_users.

(** The groups that begin with the group marker. *)
Definition marked_groups (groups : gset cell) : gset cell :=
  filter (λ g, str_startswith "GR" false g = true) groups.

(** ** Vocabulary of the statements about [re.split] *)

(** The string without its commas and white space. *)
Fixpoint without_separators (s : string) : string :=
  match s with
  | EmptyString => EmptyString
  | String c s' =>
      if is_sep c then without_separators s'
      else String c (without_separators s')
  end.

(** Every character is a comma or a white space. *)
Fixpoint sep_only (s : string) : Prop :=
  match s with
  | EmptyString => True
  | String c s' => is_sep c = true ∧ sep_only s'
  end.

(** The pieces put end to end. *)
Definition concat_pieces (pieces : list string) : string :=
  fold_right String.append EmptyString pieces.

(** ** [load_csv]: the delimiter and the column labels *)

(** [sample_line = content.split('\n')[0]] *)
Fixpoint sample_line (content : string) : string :=
  match content with
  | EmptyString => EmptyString
  | String c rest =>
      if Ascii.eqb c "010"%char then EmptyString
      else String c (sample_line rest)
  end.

(** [ch in s], for a character [ch] *)
Fixpoint contains_char (ch : ascii) (s : string) : bool :=
  match s with
  | EmptyString => false
  | String c s' => Ascii.eqb ch c || contains_char ch s'
  end.

(** The [delimiter] given to [pd.read_csv]: a tab when the first line
    has one, else a comma when it has one, else [None], which leaves the
    choice to pandas. *)
Definition delimiter (content : string) : option ascii :=
  if contains_char "009"%char (sample_line content) then Some "009"%char
  else if contains_char ","%char (sample_line content) then Some ","%char
  else None.

(** [s.lstrip()], [s.rstrip()] and [s.strip()] *)
Fixpoint lstrip (s : string) : string :=
  match s with
  | EmptyString => EmptyString
  | String c s' => if is_space c then lstrip s' else s
  end.

Fixpoint rstrip (s : string) : string :=
  match s with
  | EmptyString => EmptyString
  | String c s' =>
      match rstrip s' with
      | EmptyString => if is_space c then EmptyString else String c EmptyString
      | t => String c t
      end
  end.

Definition strip (s : string) : string := rstrip (lstrip s).

(** [s.replace(q, '')] for the double quote [q]: every double quote is
    dropped. *)
Fixpoint remove_quotes (s : string) : string :=
  match s with
  | EmptyString => EmptyString
  | String c s' =>
      if Ascii.eqb c "034"%char then remove_quotes s'
      else String c (remove_quotes s')
  end.

(** One label of [df.columns] after [.str.strip()] and the removal of
    the double quotes. *)
Definition clean_column_name (name : string) : string :=
  remove_quotes (strip name).

Definition clean_columns (names : list string) : list string :=
  map clean_column_name names.

(** The character [ch] occurs before the first line feed. *)
Fixpoint line_feed_free (s : string) : Prop :=
  match s with
  | EmptyString => True
  | String c s' => c ≠ "010"%char ∧ line_feed_free s'
  end.

Definition on_first_line (ch : ascii) (content : string) : Prop :=
  ∃ pre post, content = pre +:+ String ch post ∧ line_feed_free pre.

(** Only white space; no white space at the start; none at the end. *)
Fixpoint space_only (s : string) : Prop :=
  match s with
  | EmptyString => True
  | String c s' => is_space c = true ∧ space_only s'
  end.

Definition first_not_space (s : string) : Prop :=
  match s with
  | EmptyString => True
  | String c _ => is_space c = false
  end.

Fixpoint last_not_space (s : string) : Prop :=
  match s with
  | EmptyString => True
  | String c s' =>
      match s' with
      | EmptyString => is_space c = false
      | String _ _ => last_not_space s'
      end
  end.

Fixpoint quote_free (s : string) : Prop :=
  match s with
  | EmptyString => True
  | String c s' => c ≠ "034"%char ∧ quote_free s'
  end.

(** ** What the pages put in their tables *)

(** The exceptions of the display code: a missing value among strings
    to sort or to join, and a local variable read before any
    assignment. *)
Inductive display_exn : Type :=
  | TypeError
  | UnboundLocalError (name : string).

(** [sorted(xs)] on strings: the order of the code points. *)
Definition sorted (xs : list string) : list string :=
  merge_sort String.le xs.

(** [sep.join(xs)] *)
Fixpoint join (sep : string) (xs : list string) : string :=
  match xs with
  | [] => EmptyString
  | x :: xs' =>
      match xs' with
      | [] => x
      | _ :: _ => x +:+ sep +:+ join sep xs'
      end
  end.

(** [", ".join(sorted(X))] for a set of strings *)
Definition join_sorted (X : gset string) : string :=
  join ", " (sorted (elements X)).

(** [", ".join(sorted(X))] for a set of cells: the missing value is a
    float, which [sorted] cannot compare with a string and [join] cannot
    take. *)
Definition join_sorted_cells (X : gset cell) : display_exn + string :=
  if bool_decide (NaN ∈ X) then inl TypeError
  else inr (join ", " (sorted (omap cell_to_option (elements X)))).

(** [for x in xs: ...append(row(x))], where making a row may raise and
    an element may be passed over. *)
Fixpoint append_rows {A R : Type} (row : A → display_exn + option R)
    (xs : list A) : display_exn + list R :=
  match xs with
  | [] => inr []
  | x :: xs' =>
      match row x with
      | inl e => inl e
      | inr o =>
          match append_rows row xs' with
          | inl e => inl e
          | inr rs => inr (match o with Some r => r :: rs | None => rs end)
          end
      end
  end.

(** *** The export page *)

(** [all_accesses], the options of the multiselect. *)
Definition all_accesses (user_accesses : gmap cell (gset string))
    : gset string :=
  map_fold (λ _ accesses acc, acc ∪ accesses) ∅ user_accesses.

(** [sorted(list(all_accesses))], the options as the multiselect lists
    them. *)
Definition access_options (user_accesses : gmap cell (gset string))
    : list string :=
  sorted (elements (all_accesses user_accesses)).

(** [any(access in selected_accesses for access in accesses)] *)
Definition any_selected (selected_accesses : list string)
    (accesses : gset string) : bool :=
  existsb (λ access, bool_decide (access ∈ selected_accesses))
    (elements accesses).

Record FilteredRow : Type := {
  fr_User : cell;
  fr_Groups : string;
  fr_Accesses : string
}.

(** The body of the loop over [user_accesses.items()]. *)
Definition filtered_row (user_groups : gmap cell (gset cell))
    (selected_accesses : list string) (item : cell * gset string)
    : display_exn + option FilteredRow :=
  let '(user, accesses) := item in
  if any_selected selected_accesses accesses then
    let groups := default ∅ (user_groups !! user) in
    match join_sorted_cells groups with
    | inl e => inl e
    | inr joined =>
        inr (Some {| fr_User := user;
                     fr_Groups := joined;
                     fr_Accesses := join_sorted accesses |})
    end
  else inr None.

(** [filtered_data], built when [selected_accesses] is not empty; the
    rows come in the order of the items of the mapping. *)
Definition filtered_data (user_groups : gmap cell (gset cell))
    (user_accesses : gmap cell (gset string))
    (selected_accesses : list string) : display_exn + list FilteredRow :=
  append_rows (filtered_row user_groups selected_accesses)
    (map_to_list user_accesses).

(** *** The home page: users with extra access, and the export *)

Record ExtraRow : Type := {
  er_User : cell;
  er_Extra_Accesses : string;
  er_Extra_Access_Count : Z;
  er_Assigned_Groups : string;
  er_Group_Count : Z;
  er_Total_Access_Count : Z
}.

(** The body of the loop over [extra_accesses.items()]. *)
Definition extra_access_row (user_groups : gmap cell (gset cell))
    (user_accesses : gmap cell (gset string)) (item : cell * gset string)
    : display_exn + option ExtraRow :=
  let '(user, extra) := item in
  match join_sorted_cells (default ∅ (user_groups !! user)) with
  | inl e => inl e
  | inr joined =>
      inr (Some {| er_User := user;
                   er_Extra_Accesses := join_sorted extra;
                   er_Extra_Access_Count := len extra;
                   er_Assigned_Groups := joined;
                   er_Group_Count := len (default ∅ (user_groups !! user));
                   er_Total_Access_Count :=
                     len (default ∅ (user_accesses !! user)) |})
  end.

(** The local variable [extra_access_data] of [main] after the section
    "Users with Extra Access Rights": it is assigned in the branch
    [if extra_accesses:] only, [None] stands for the variable left
    unbound. *)
Definition extra_access_data (user_groups : gmap cell (gset cell))
    (user_accesses extra_accesses : gmap cell (gset string))
    : display_exn + option (list ExtraRow) :=
  if negb (len extra_accesses =? 0)%Z then
    match append_rows (extra_access_row user_groups user_accesses)
            (map_to_list extra_accesses) with
    | inl e => inl e
    | inr rows => inr (Some rows)
    end
  else inr None.

(** The test [if extra_access_data:] of the section "Export Results",
    for a given binding of the local variable: reading the unbound
    variable raises; otherwise the result tells whether the download
    button is drawn. *)
Definition export_results (extra_access_data : option (list ExtraRow))
    : display_exn + bool :=
  match extra_access_data with
  | None => inl (UnboundLocalError "extra_access_data")
  | Some rows => inr (negb (length rows =? 0))
  end.

(** * Properties *)

(** ** Splitting on runs of separators *)

Section tokens.

Implicit Types (s t h pre post : string) (c : ascii).

#[local] Arguments String.append : simpl nomatch.

Lemma append_nil_r s : s +:+ "" = s.
Proof. induction s as [|c s IH]; simpl; [done | by rewrite IH]. Qed.

Lemma append_assoc s1 s2 s3 : (s1 +:+ s2) +:+ s3 = s1 +:+ s2 +:+ s3.
Proof. induction s1 as [|c s1 IH]; simpl; [done | by rewrite IH]. Qed.

Lemma sep_last_nil : ¬ sep_last "".
Proof. intros ([|? ?] & c & Heq & _); discriminate Heq. Qed.

Lemma sep_last_cons c pre : sep_last pre → sep_last (String c pre).
Proof.
  intros (p & c' & -> & Hc'). exists (String c p), c'. by split.
Qed.

Lemma sep_last_single c : is_sep c = true → sep_last (String c "").
Proof. intros Hc. exists "", c. by split. Qed.

Lemma sep_last_uncons c pre :
  sep_last (String c pre) → (pre = "" ∧ is_sep c = true) ∨ sep_last pre.
Proof.
  intros ([|c0 p] & c' & Heq & Hc'); simpl in Heq; injection Heq as -> ->.
  - by left.
  - right. by exists p, c'.
Qed.

Lemma split_from_not_nil b s : split_from b s ≠ [].
Proof.
  revert b. induction s as [|c s IH]; intros b; simpl; [done|].
  destruct (is_sep c).
  - destruct b; [apply IH | done].
  - by destruct (split_from false s).
Qed.

Lemma head_piece_unique s h1 h2 : head_piece s h1 → head_piece s h2 → h1 = h2.
Proof.
  revert s h2. induction h1 as [|c h1 IH]; intros s h2.
  - intros [_ (post1 & -> & Hp1)] [Hf2 (post2 & Heq & _)].
    destruct h2 as [|c2 h2]; [done|]. simpl in *.
    subst post1. simpl in Hp1. destruct Hf2. congruence.
  - intros [[Hc Hf1] (post1 & -> & Hp1)] [Hf2 (post2 & Heq & Hp2)].
    destruct h2 as [|c2 h2]; simpl in *.
    + subst post2. simpl in Hp2. congruence.
    + injection Heq as -> Heq. f_equal.
      apply (IH (h1 +:+ post1)).
      * split; [done | by exists post1].
      * split; [by destruct Hf2 | by exists post2].
Qed.

Lemma head_piece_cons c s h :
  is_sep c = false → head_piece s h → head_piece (String c s) (String c h).
Proof.
  intros Hc [Hf (post & -> & Hp)]. split; [done|]. by exists post.
Qed.

Lemma head_piece_sep c s : is_sep c = true → head_piece (String c s) "".
Proof. intros Hc. split; [done|]. by exists (String c s). Qed.

Lemma head_piece_nil : head_piece "" "".
Proof. split; [done|]. by exists "". Qed.

Lemma token_sep_cons g c s t :
  is_sep c = true → token_of g (String c s) t ↔ token_of false s t.
Proof.
  intros Hc. split.
  - intros (Hne & Hf & pre & post & Heq & Hpost & Hpre).
    destruct pre as [|c0 pre].
    + destruct t as [|c1 t]; [done|]. simpl in Heq, Hf.
      injection Heq as <- _. destruct Hf. congruence.
    + simpl in Heq. injection Heq as -> ->.
      split; [done|]. split; [done|]. exists pre, post.
      split; [done|]. split; [done|].
      destruct Hpre as [Hl | [_ ?]]; [|done].
      apply sep_last_uncons in Hl as [[-> _] | Hl]; [by right | by left].
  - intros (Hne & Hf & pre & post & -> & Hpost & Hpre).
    split; [done|]. split; [done|]. exists (String c pre), post.
    split; [done|]. split; [done|]. left.
    destruct Hpre as [Hl | [_ ->]].
    + by apply sep_last_cons.
    + by apply sep_last_single.
Qed.

Lemma token_glued_cons c s t :
  is_sep c = false → token_of true (String c s) t ↔ token_of true s t.
Proof.
  intros Hc. split.
  - intros (Hne & Hf & pre & post & Heq & Hpost & Hpre).
    destruct Hpre as [Hl | [? _]]; [|done].
    destruct pre as [|c0 pre]; [by apply sep_last_nil in Hl|].
    simpl in Heq. injection Heq as -> ->.
    apply sep_last_uncons in Hl as [[_ ?] | Hl]; [congruence|].
    split; [done|]. split; [done|]. exists pre, post. auto.
  - intros (Hne & Hf & pre & post & -> & Hpost & Hpre).
    destruct Hpre as [Hl | [? _]]; [|done].
    split; [done|]. split; [done|]. exists (String c pre), post.
    split; [done|]. split; [done|]. left. by apply sep_last_cons.
Qed.

Lemma token_unglued s t :
  token_of false s t ↔ (t ≠ "" ∧ head_piece s t) ∨ token_of true s t.
Proof.
  split.
  - intros (Hne & Hf & pre & post & Heq & Hpost & [Hl | [_ ->]]).
    + right. split; [done|]. split; [done|]. exists pre, post. auto.
    + left. split; [done|]. split; [done|]. by exists post.
  - intros [[Hne [Hf (post & -> & Hpost)]] | (Hne & Hf & pre & post & Heq & Hpost & Hpre)].
    + split; [done|]. split; [done|]. exists "", post. auto.
    + destruct Hpre as [Hl | [? _]]; [|done].
      split; [done|]. split; [done|]. exists pre, post. auto.
Qed.

Lemma token_of_nil g t : ¬ token_of g "" t.
Proof.
  intros (Hne & _ & pre & post & Heq & _).
  destruct pre; [|discriminate Heq]. by destruct t.
Qed.

(** The pieces of [split_from]: read inside a match, the non-empty
    pieces are the tokens; read from a piece, the first piece is the
    head piece and the other non-empty pieces are the later tokens. *)
Lemma split_from_spec s :
  (∀ t, t ≠ "" → In t (split_from true s) ↔ token_of false s t) ∧
  (∃ h ps, split_from false s = h :: ps ∧ head_piece s h ∧
     ∀ t, t ≠ "" → In t ps ↔ token_of true s t).
Proof.
  induction s as [|c s [IH1 (h & ps & Hs & Hh & IH2)]].
  - split.
    + intros t Hne. simpl. split; [intros [<-|[]]; done|].
      intros Ht. by apply token_of_nil in Ht.
    + exists "", []. split; [done|]. split; [apply head_piece_nil|].
      intros t Hne. split; [intros []|]. intros Ht. by apply token_of_nil in Ht.
  - simpl. destruct (is_sep c) eqn:Hc.
    + split.
      * intros t Hne. rewrite IH1 by done. by rewrite token_sep_cons.
      * exists "", (split_from true s). split; [done|].
        split; [by apply head_piece_sep|].
        intros t Hne. rewrite IH1 by done. by rewrite token_sep_cons.
    + rewrite Hs.
      assert (Hh' : head_piece (String c s) (String c h))
        by by apply head_piece_cons.
      split.
      * intros t Hne. rewrite token_unglued, token_glued_cons by done.
        simpl. rewrite IH2 by done. split.
        -- intros [<- | Ht]; [left | by right]. done.
        -- intros [[_ Ht] | Ht]; [left | by right].
           by apply (head_piece_unique (String c s)).
      * exists (String c h), ps. split; [done|]. split; [done|].
        intros t Hne. rewrite IH2 by done. by rewrite token_glued_cons.
Qed.

Lemma truthy_ne t : truthy t = true ↔ t ≠ "".
Proof. destruct t; simpl; split; congruence. Qed.

(** The non-empty pieces of [re.split] are exactly the tokens. *)
Lemma nonempty_pieces_spec s t : In t (nonempty_pieces s) ↔ is_token s t.
Proof.
  unfold nonempty_pieces, re_split, is_token.
  destruct (split_from_spec s) as [_ (h & ps & -> & Hh & Hps)].
  rewrite filter_In, truthy_ne, token_unglued. simpl. split.
  - intros [[<- | Ht] Hne]; [by left | right]. by apply Hps.
  - intros [[Hne Ht] | Ht].
    + split; [left | done]. by apply (head_piece_unique s).
    + assert (t ≠ "") by apply Ht. split; [right | done]. by apply Hps.
Qed.

End tokens.

(** ** Loops over the rows of a frame *)

Section loops.

Lemma getitem_ok (cols : list string) (r : string → cell) (col : string) :
  col ∈ cols → getitem {| index := cols; at_label := r |} col = Ok (r col).
Proof. intros Hin. unfold getitem. simpl. by rewrite bool_decide_eq_true_2. Qed.

Lemma getitem_missing (cols : list string) (r : string → cell) (col : string) :
  col ∉ cols →
  getitem {| index := cols; at_label := r |} col = Raise (KeyError col).
Proof. intros Hin. unfold getitem. simpl. by rewrite bool_decide_eq_false_2. Qed.

Lemma getcolumn_ok (df : DataFrame) (col : string) :
  col ∈ columns df → getcolumn df col = Ok (map (λ r, r col) (rows df)).
Proof. intros Hin. unfold getcolumn. by rewrite bool_decide_eq_true_2. Qed.

(** A loop whose body cannot raise is a left fold. *)
Lemma for_each_ok {A S : Type} (body : A → S → result S) (f : A → S → S)
    (l : list A) (s : S) :
  (∀ x s', In x l → body x s' = Ok (f x s')) →
  for_each body l s = Ok (foldl (λ s' x, f x s') s l).
Proof.
  revert s. induction l as [|x l IH]; intros s Hbody; simpl; [done|].
  rewrite Hbody by (by left). simpl. apply IH.
  intros y s' Hy. apply Hbody. by right.
Qed.

Lemma for_each_iterrows {S : Type} (body : Series → S → result S)
    (f : (string → cell) → S → S) (df : DataFrame) (s : S) :
  (∀ r s', body {| index := columns df; at_label := r |} s' = Ok (f r s')) →
  for_each body (iterrows df) s = Ok (foldl (λ s' r, f r s') s (rows df)).
Proof.
  intros Hbody. unfold iterrows.
  rewrite (for_each_ok body (λ x, f (at_label x))).
  - f_equal. generalize s. induction (rows df) as [|r l IH]; intros s0; simpl; [done|].
    apply IH.
  - intros x s' Hx. apply in_map_iff in Hx as (r & <- & _). apply Hbody.
Qed.

Lemma select_rows_rows (df : DataFrame) (p : cell → bool) (col : string) :
  rows (select_rows df (map p (map (λ r, r col) (rows df))))
  = List.filter (λ r, p (r col)) (rows df).
Proof.
  unfold select_rows. simpl. induction (rows df) as [|r l IH]; simpl; [done|].
  destruct (p (r col)); simpl; by rewrite IH.
Qed.

Lemma foldl_filter {A S : Type} (p : A → bool) (f : S → A → S) (l : list A) (s : S) :
  foldl (λ s' x, if p x then f s' x else s') s l = foldl f s (List.filter p l).
Proof.
  revert s. induction l as [|x l IH]; intros s; simpl; [done|].
  destruct (p x); simpl; apply IH.
Qed.

Lemma for_each_nil {A S : Type} (body : A → S → result S) (s : S) :
  for_each body [] s = Ok s.
Proof. done. Qed.

(** A loop whose body raises on every element raises at the first. *)
Lemma for_each_raises {A S : Type} (body : A → S → result S) (e : exn)
    (xs : list A) (s : S) :
  xs ≠ [] →
  (∀ x s', In x xs → body x s' = Raise e) →
  for_each body xs s = Raise e.
Proof.
  destruct xs as [|x xs]; [done|]. intros _ Hbody. simpl.
  by rewrite Hbody by (by left).
Qed.

Lemma iterrows_nil_iff df : iterrows df = [] ↔ rows df = [].
Proof.
  unfold iterrows. destruct (rows df); simpl; split; congruence.
Qed.

Lemma in_iterrows df (x : Series) :
  In x (iterrows df) →
  ∃ r, In r (rows df) ∧ x = {| index := columns df; at_label := r |}.
Proof.
  unfold iterrows. intros (r & <- & Hr)%in_map_iff. by exists r.
Qed.

(** A loop whose body raises on every element stops at the first one,
    or does nothing when there is none. *)
Lemma for_each_raises_or_nil {A S : Type} (body : A → S → result S) (e : exn)
    (xs : list A) (s : S) :
  (∀ x s', In x xs → body x s' = Raise e) →
  for_each body xs s = Raise e ∨ for_each body xs s = Ok s.
Proof.
  destruct xs as [|x xs]; [by right|]. intros Hbody. left.
  by apply for_each_raises.
Qed.

End loops.

(** ** The access resolvers as folds *)

Section resolvers.

Implicit Types (r : string → cell) (l : list (string → cell)) (k : cell)
  (d : gmap cell (gset string)) (a : string).

#[local] Arguments String.append : simpl nomatch.

Lemma granted_access_grants r a : granted_access r = Some a ↔ grants r a.
Proof.
  unfold granted_access, grants, access_of.
  destruct (r "VHFROM") as [|s]; simpl; [naive_solver|].
  destruct s as [|c s]; simpl; naive_solver.
Qed.

Lemma granted_access_none r : granted_access r = None ↔ no_access r.
Proof.
  unfold granted_access, no_access, access_of.
  destruct (r "VHFROM") as [|s]; simpl; [naive_solver|].
  destruct s as [|c s]; simpl; naive_solver.
Qed.

Lemma elem_of_granted_set k l a :
  a ∈ granted_set k l ↔ ∃ r, In r l ∧ subject r = k ∧ grants r a.
Proof.
  unfold granted_set. rewrite elem_of_list_to_set, list_elem_of_omap.
  split.
  - intros (r & Hr & Ha). exists r. apply list_elem_of_In in Hr.
    case_bool_decide; [|done]. by rewrite <- granted_access_grants.
  - intros (r & Hr & Hk & Ha). exists r. apply list_elem_of_In in Hr.
    rewrite bool_decide_eq_true_2 by done. by rewrite granted_access_grants.
Qed.

Lemma record_access_lookup k (o : option string) d k' :
  record_access k o d !! k' =
    if decide (k = k') then
      Some (default ∅ (d !! k) ∪
            match o with
            | Some a => if truthy a then {[a]} else ∅
            | None => ∅
            end)
    else d !! k'.
Proof.
  unfold record_access. destruct (decide (k = k')) as [<-|Hne].
  - destruct (d !! k) as [S|] eqn:Hd; simpl.
    + destruct o as [a|]; [destruct (truthy a)|].
      * rewrite lookup_alter_eq, Hd. done.
      * rewrite Hd. f_equal; set_solver.
      * rewrite Hd. f_equal; set_solver.
    + destruct o as [a|]; [destruct (truthy a)|].
      * rewrite lookup_alter_eq, lookup_insert_eq. done.
      * rewrite lookup_insert_eq. f_equal; set_solver.
      * rewrite lookup_insert_eq. f_equal; set_solver.
  - assert (Hd1 : (match d !! k with
                   | Some _ => d | None => <[k:=∅]> d end) !! k' = d !! k').
    { destruct (d !! k); [done | by rewrite lookup_insert_ne]. }
    destruct o as [a|]; [destruct (truthy a)|]; try done.
    by rewrite lookup_alter_ne.
Qed.

Lemma record_row_lookup d r k :
  record_row d r !! k =
    if decide (subject r = k) then
      Some (default ∅ (d !! k) ∪ granted_set k [r])
    else d !! k.
Proof.
  unfold record_row. rewrite record_access_lookup.
  destruct (decide (subject r = k)) as [<-|Hne]; [|done].
  f_equal. f_equal. unfold granted_set. simpl.
  rewrite bool_decide_eq_true_2 by done. unfold granted_access.
  destruct (access_of (r "VHFROM")) as [a|]; [destruct (truthy a)|]; simpl;
    set_solver.
Qed.

Lemma granted_set_cons k r l :
  granted_set k (r :: l) = granted_set k [r] ∪ granted_set k l.
Proof.
  unfold granted_set. simpl.
  destruct (if bool_decide (subject r = k) then granted_access r else None);
    simpl; set_solver.
Qed.

Lemma granted_set_other k r : subject r ≠ k → granted_set k [r] = ∅.
Proof.
  intros Hne. unfold granted_set. simpl. by rewrite bool_decide_eq_false_2.
Qed.

(** What the fold holds for [k]: untouched when no row names [k],
    otherwise all that the rows of [k] grant, added to what was there. *)
Lemma foldl_record_row_lookup l d k :
  foldl record_row d l !! k =
    if bool_decide (Exists (λ r, subject r = k) l) then
      Some (default ∅ (d !! k) ∪ granted_set k l)
    else d !! k.
Proof.
  revert d. induction l as [|r l IH]; intros d; cbn [foldl].
  - rewrite bool_decide_eq_false_2; [done|]. by intros ?%Exists_nil.
  - rewrite IH, record_row_lookup, (granted_set_cons k r l).
    destruct (decide (subject r = k)) as [Hk|Hk].
    + rewrite (bool_decide_eq_true_2 (Exists _ (r :: l))) by (by left).
      simpl. case_bool_decide; f_equal; [set_solver|].
      assert (granted_set k l = ∅) as ->; [|set_solver].
      apply set_eq. intros a. rewrite elem_of_granted_set.
      split; [|set_solver]. intros (r' & Hr' & Hk' & _).
      exfalso. apply H. apply Exists_exists. exists r'.
      by rewrite list_elem_of_In.
    + rewrite (granted_set_other k r) by done.
      case_bool_decide as Hex.
      * rewrite bool_decide_eq_true_2 by (by right). f_equal. set_solver.
      * rewrite bool_decide_eq_false_2; [done|].
        rewrite Exists_cons. naive_solver.
Qed.

Lemma granted_set_filter (q : cell → bool) k l :
  q k = true →
  granted_set k (List.filter (λ r, q (subject r)) l) = granted_set k l.
Proof.
  intros Hq. apply set_eq. intros a. rewrite !elem_of_granted_set.
  split.
  - intros (r & Hr & Hk & Ha). apply filter_In in Hr as [Hr _]. by exists r.
  - intros (r & Hr & Hk & Ha). exists r. split; [|done].
    apply filter_In. split; [done|]. by rewrite Hk.
Qed.

Lemma Exists_subject_filter (q : cell → bool) k l :
  Exists (λ r, subject r = k) (List.filter (λ r, q (subject r)) l)
  ↔ q k = true ∧ Exists (λ r, subject r = k) l.
Proof.
  rewrite !Exists_exists. split.
  - intros (r & Hr & Hk). apply list_elem_of_In, filter_In in Hr as [Hr Hq].
    rewrite Hk in Hq. split; [done|]. exists r. by rewrite list_elem_of_In.
  - intros [Hq (r & Hr & Hk)]. exists r. split; [|done].
    apply list_elem_of_In, filter_In. rewrite Hk.
    by rewrite <- list_elem_of_In.
Qed.

(** The entry of [k] in a routed mapping. *)
Lemma routed_lookup (q : cell → bool) l k :
  routed q l !! k =
    if q k && bool_decide (Exists (λ r, subject r = k) l)
    then Some (granted_set k l) else None.
Proof.
  unfold routed. rewrite foldl_record_row_lookup, lookup_empty. simpl.
  destruct (q k) eqn:Hq; simpl.
  - case_bool_decide as Hex.
    + apply Exists_subject_filter in Hex as [_ Hex].
      rewrite bool_decide_eq_true_2 by done. f_equal.
      rewrite granted_set_filter by done. set_solver.
    + rewrite bool_decide_eq_false_2; [done|].
      intros Hex'. apply Hex. by apply Exists_subject_filter.
  - rewrite bool_decide_eq_false_2; [done|].
    intros [Hq' _]%Exists_subject_filter. congruence.
Qed.

Lemma routed_lookup_Some (q : cell → bool) l k S :
  routed q l !! k = Some S ↔
    q k = true ∧ (∃ r, In r l ∧ subject r = k) ∧ S = granted_set k l.
Proof.
  rewrite routed_lookup. destruct (q k); simpl.
  - case_bool_decide as Hex.
    + apply Exists_exists in Hex as (r & Hr%list_elem_of_In & Hk).
      split; [intros [= <-]; eauto | by intros (_ & _ & ->)].
    + split; [done|]. intros (_ & (r & Hr & Hk) & _). exfalso. apply Hex.
      apply Exists_exists. exists r. by rewrite list_elem_of_In.
  - split; [done | by intros [? _]].
Qed.

Lemma prefix_append (p s : string) :
  String.prefix p s = true ↔ ∃ rest, s = p +:+ rest.
Proof.
  revert s. induction p as [|c p IH]; intros s.
  - split; [intros _; by exists s | intros _; by destruct s].
  - destruct s as [|c' s]; simpl.
    + split; [done | by intros [rest ?]].
    + destruct (ascii_dec c c') as [<-|Hne].
      * rewrite IH. split; intros [rest Heq]; exists rest.
        -- by rewrite Heq.
        -- by injection Heq.
      * split; [done|]. intros [rest Heq]. injection Heq as <- _. done.
Qed.

Lemma startswith_GR k : str_startswith "GR" false k = true ↔ group_marked k.
Proof.
  unfold group_marked. destruct k as [|s]; simpl.
  - split; [done | by intros [? ?]].
  - rewrite prefix_append. split; intros [rest Heq]; exists rest.
    + by rewrite Heq.
    + by injection Heq.
Qed.

Lemma not_public_true k : not_public k = true ↔ k ≠ public_subject.
Proof.
  unfold not_public. rewrite negb_true_iff, bool_decide_eq_false. done.
Qed.

Lemma get_user_accesses_routed df :
  access_columns df →
  Home.get_user_accesses df = Ok (routed not_public (rows df)).
Proof.
  intros [Hj Hv]. unfold Home.get_user_accesses, routed.
  rewrite (for_each_iterrows _
    (λ r d, if not_public (subject r) then record_row d r else d)).
  - f_equal. apply (foldl_filter (λ r, not_public (subject r)) record_row).
  - intros r d. unfold Home.get_user_accesses_row.
    rewrite (getitem_ok _ _ _ Hj), (getitem_ok _ _ _ Hv).
    unfold not_public, public_subject, subject. simpl.
    by case_bool_decide.
Qed.

Lemma get_group_accesses_routed df :
  access_columns df →
  Home.get_group_accesses df = Ok (routed (str_startswith "GR" false) (rows df)).
Proof.
  intros [Hj Hv]. unfold Home.get_group_accesses, routed.
  rewrite (getcolumn_ok _ _ Hj). simpl.
  rewrite (for_each_iterrows _ (λ r d, record_row d r)).
  - by rewrite select_rows_rows.
  - intros r d. unfold Home.get_group_accesses_row. simpl.
    by rewrite (getitem_ok _ _ _ Hj), (getitem_ok _ _ _ Hv).
Qed.

Lemma get_public_accesses_set df :
  access_columns df →
  Home.get_public_accesses df = Ok (granted_set public_subject (rows df)).
Proof.
  intros [Hj Hv]. unfold Home.get_public_accesses.
  rewrite (getcolumn_ok _ _ Hj). simpl.
  rewrite (for_each_iterrows _
    (λ r S, match granted_access r with Some a => S ∪ {[a]} | None => S end)).
  - f_equal. rewrite select_rows_rows.
    assert (Hgen : ∀ l (S : gset string),
      foldl (λ S' r, match granted_access r with
                     | Some a => S' ∪ {[a]} | None => S' end) S
        (List.filter (λ r, cell_eq_str "*PUBLIC" (r "JNUSER")) l)
      = S ∪ granted_set public_subject l).
    { induction l as [|r l IH]; intros S; simpl.
      - unfold granted_set. simpl. set_solver.
      - rewrite (granted_set_cons _ r l). unfold cell_eq_str.
        case_bool_decide as Hk; simpl.
        + rewrite IH. unfold granted_set at 2. simpl.
          rewrite bool_decide_eq_true_2 by done.
          destruct (granted_access r); simpl; set_solver.
        + rewrite IH, (granted_set_other _ r) by done. set_solver. }
    rewrite Hgen. set_solver.
  - intros r S. unfold Home.get_public_accesses_row. simpl.
    rewrite (getitem_ok _ _ _ Hv). simpl. unfold granted_access.
    by destruct (access_of (r "VHFROM")) as [a|]; [destruct (truthy a)|].
Qed.

End resolvers.

(** ** Reconciliation *)

Section reconciliation.

Implicit Types (ug : gmap cell (gset cell)) (ua ga : gmap cell (gset string))
  (pa : gset string) (u g : cell) (a : string).

Lemma elem_of_expected_spec ga pa (groups : gset cell) a :
  a ∈ expected_spec ga pa groups ↔
    a ∈ pa ∨ ∃ g S, g ∈ groups ∧ ga !! g = Some S ∧ a ∈ S.
Proof.
  unfold expected_spec. rewrite elem_of_union, elem_of_union_list.
  split; (intros [Hpa | Hg]; [by left | right]).
  - destruct Hg as (X & HX & Ha).
    apply list_elem_of_fmap in HX as (g & -> & Hg%elem_of_elements).
    destruct (ga !! g) as [S|] eqn:Hga; simpl in Ha; [|set_solver].
    by exists g, S.
  - destruct Hg as (g & S & Hg & Hga & Ha). exists S. split; [|done].
    apply list_elem_of_fmap. exists g. rewrite Hga. split; [done|].
    by apply elem_of_elements.
Qed.

Lemma elem_of_expected_accesses ga pa (groups : gset cell) a :
  a ∈ Home.expected_accesses ga pa groups ↔
    a ∈ pa ∨ ∃ g S, g ∈ groups ∧ ga !! g = Some S ∧ a ∈ S.
Proof.
  unfold Home.expected_accesses.
  apply (set_fold_ind_L
    (λ acc (X : gset cell),
       a ∈ acc ↔ a ∈ pa ∨ ∃ g S, g ∈ X ∧ ga !! g = Some S ∧ a ∈ S)).
  - split; [by left|]. intros [?|(g & S & Hg & _)]; [done | set_solver].
  - intros g X acc Hg IH. unfold Home.add_group_access.
    destruct (ga !! g) as [S|] eqn:Hga.
    + rewrite elem_of_union, IH. split.
      * intros [[?|(g' & S' & ? & ? & ?)] | ?]; [by left| |].
        -- right. exists g', S'. set_solver.
        -- right. exists g, S. set_solver.
      * intros [?|(g' & S' & [->%elem_of_singleton|?]%elem_of_union & Hga' & ?)].
        -- left. by left.
        -- right. congruence.
        -- left. right. by exists g', S'.
    + rewrite IH. split.
      * intros [?|(g' & S' & ? & ? & ?)]; [by left|].
        right. exists g', S'. set_solver.
      * intros [?|(g' & S' & [->%elem_of_singleton|?]%elem_of_union & Hga' & ?)].
        -- by left.
        -- congruence.
        -- right. by exists g', S'.
Qed.

(** The inner loop computes the expected set of the specification. *)
Lemma expected_accesses_spec ga pa (groups : gset cell) :
  Home.expected_accesses ga pa groups = expected_spec ga pa groups.
Proof.
  apply set_eq. intros a.
  by rewrite elem_of_expected_accesses, elem_of_expected_spec.
Qed.

Lemma len_zero_iff (X : gset string) : (len X =? 0)%Z = true ↔ X = ∅.
Proof.
  unfold len. rewrite Z.eqb_eq, <- leibniz_equiv_iff, <- size_empty_iff. lia.
Qed.

(** The outer loop builds the mapping of the specification, entry by
    entry. *)
Lemma find_extra_accesses_lookup ug ua ga pa u :
  Home.find_extra_accesses ug ua ga pa !! u = extra_spec ug ua ga pa u.
Proof.
  unfold Home.find_extra_accesses. revert u.
  apply (map_fold_weak_ind
    (λ r (m : gmap cell (gset cell)), ∀ u, r !! u = extra_spec m ua ga pa u)).
  - intros u. unfold extra_spec. by rewrite !lookup_empty.
  - intros i groups m r Hi IH u. simpl.
    rewrite expected_accesses_spec. unfold extra_spec.
    set (extra := default ∅ (ua !! i) ∖ expected_spec ga pa groups).
    destruct (decide (i = u)) as [<-|Hne].
    + rewrite lookup_insert_eq. fold extra.
      destruct (len extra =? 0)%Z eqn:Hlen; simpl.
      * apply len_zero_iff in Hlen. rewrite bool_decide_eq_true_2 by done.
        rewrite IH. unfold extra_spec. by rewrite Hi.
      * rewrite lookup_insert_eq. rewrite bool_decide_eq_false_2; [done|].
        intros Hemp%len_zero_iff. congruence.
    + rewrite (lookup_insert_ne m) by done.
      destruct (len extra =? 0)%Z; simpl.
      * apply IH.
      * rewrite lookup_insert_ne by done. apply IH.
Qed.

Lemma extra_spec_dom ug ua ga pa u :
  is_Some (extra_spec ug ua ga pa u) → is_Some (ug !! u).
Proof. unfold extra_spec. destruct (ug !! u); [eauto | by intros [? ?]]. Qed.

End reconciliation.

(** ** The membership resolvers *)

Section membership.

Implicit Types (r : string → cell) (l : list (string → cell)) (g k : cell).

Lemma first_missing_None df :
  first_missing df = None ↔
    "USER_NAME" ∈ columns df ∧ "MAIN_GROUP" ∈ columns df
    ∧ "ADDL_GROUP" ∈ columns df.
Proof.
  unfold first_missing, required_columns. simpl.
  repeat case_bool_decide; simpl; naive_solver.
Qed.

(** The column reported is a required one that the frame lacks, and the
    required columns before it are there. *)
Lemma first_missing_Some df col :
  first_missing df = Some col →
  col ∈ required_columns ∧ col ∉ columns df.
Proof.
  unfold first_missing. intros Hf. apply find_some in Hf as [Hin Hc].
  apply list_elem_of_In in Hin. split; [done|].
  apply negb_true_iff, bool_decide_eq_false in Hc. done.
Qed.

Lemma elem_of_extend_with_additional addl (groups : list cell) g :
  g ∈ extend_with_additional addl groups ↔
    g ∈ groups ∨ ∃ s t, addl = Str s ∧ is_token s t ∧ g = Str t.
Proof.
  unfold extend_with_additional. destruct addl as [|s]; simpl.
  - split; [by left|]. intros [?|(s & t & ? & _)]; done.
  - rewrite elem_of_app, list_elem_of_fmap. split.
    + intros [?|(t & -> & Ht)]; [by left|]. right. exists s, t.
      apply list_elem_of_In, nonempty_pieces_spec in Ht. done.
    + intros [?|(s' & t & [= <-] & Ht & ->)]; [by left|]. right.
      exists t. split; [done|]. by apply list_elem_of_In, nonempty_pieces_spec.
Qed.

Lemma elem_of_home_groups r g : g ∈ home_groups r ↔ in_resolved_groups r g.
Proof.
  unfold home_groups, in_resolved_groups.
  rewrite elem_of_extend_with_additional.
  destruct (r "MAIN_GROUP") as [|m]; simpl.
  - split; (intros [H|H]; [|by right]).
    + by apply elem_of_nil in H.
    + by destruct H as [-> ?].
  - split; (intros [H|H]; [left|by right]).
    + by apply list_elem_of_singleton in H as ->.
    + destruct H as [-> _]. by apply list_elem_of_singleton.
Qed.

Lemma elem_of_export_groups r g :
  g ∈ export_groups r ↔ g = user_of r ∨ in_resolved_groups r g.
Proof.
  unfold export_groups, in_resolved_groups, user_of.
  rewrite elem_of_extend_with_additional.
  destruct (r "MAIN_GROUP") as [|m]; simpl.
  - rewrite list_elem_of_singleton. naive_solver.
  - rewrite elem_of_cons, list_elem_of_singleton. naive_solver.
Qed.

(** The entry of the row that names its user last. *)
Lemma assign_groups_last (groups_of : (string → cell) → list cell) l1 r l2 :
  (∀ r', In r' l2 → user_of r' ≠ user_of r) →
  assign_groups groups_of (l1 ++ r :: l2) !! user_of r
  = Some (list_to_set (groups_of r)).
Proof.
  intros Hlast. unfold assign_groups. rewrite foldl_app. simpl.
  assert (Hgen : ∀ l (m : gmap cell (gset cell)) k,
    (∀ r', In r' l → user_of r' ≠ k) →
    foldl (λ m' r0, <[user_of r0 := list_to_set (groups_of r0)]> m') m l !! k
    = m !! k).
  { induction l as [|r0 l IH]; intros m k Hk; simpl; [done|].
    rewrite IH by (intros r' Hr'; apply Hk; by right).
    apply lookup_insert_ne. apply Hk. by left. }
  rewrite Hgen by done. apply lookup_insert_eq.
Qed.

(** The keys are the user cells of the rows, whatever they hold. *)
Lemma assign_groups_dom (groups_of : (string → cell) → list cell) l :
  dom (assign_groups groups_of l) = list_to_set (map user_of l).
Proof.
  unfold assign_groups.
  assert (Hgen : ∀ l' (m : gmap cell (gset cell)),
    dom (foldl (λ m' r0, <[user_of r0 := list_to_set (groups_of r0)]> m') m l')
    = dom m ∪ list_to_set (map user_of l')).
  { induction l' as [|r0 l' IH]; intros m; simpl; [set_solver|].
    rewrite IH, dom_insert_L. set_solver. }
  rewrite Hgen, dom_empty_L. set_solver.
Qed.

Lemma home_get_user_groups_assign df :
  first_missing df = None →
  Home.get_user_groups df = Run (Ok (assign_groups home_groups (rows df))) [].
Proof.
  intros Hcols. unfold Home.get_user_groups. rewrite Hcols.
  apply first_missing_None in Hcols as (Hu & Hm & Ha).
  unfold lift. f_equal.
  apply (for_each_iterrows Home.get_user_groups_row
           (λ r m, <[user_of r := list_to_set (home_groups r)]> m)).
  intros r m. unfold Home.get_user_groups_row.
  by rewrite (getitem_ok _ _ _ Hm), (getitem_ok _ _ _ Ha), (getitem_ok _ _ _ Hu).
Qed.

Lemma export_get_user_groups_assign df :
  first_missing df = None →
  AccessExport.get_user_groups df
  = Run (Ok (assign_groups export_groups (rows df))) [].
Proof.
  intros Hcols. unfold AccessExport.get_user_groups. rewrite Hcols.
  apply first_missing_None in Hcols as (Hu & Hm & Ha).
  unfold lift. f_equal.
  apply (for_each_iterrows AccessExport.get_user_groups_row
           (λ r m, <[user_of r := list_to_set (export_groups r)]> m)).
  intros r m. unfold AccessExport.get_user_groups_row.
  by rewrite (getitem_ok _ _ _ Hm), (getitem_ok _ _ _ Hu), (getitem_ok _ _ _ Ha).
Qed.

(** With a required column missing, the resolver shows one message, for
    the first such column, and hands back the empty mapping. *)
Lemma home_get_user_groups_missing df col :
  first_missing df = Some col →
  Home.get_user_groups df = Run (Ok ∅) [missing_column_message col].
Proof. intros Hcol. unfold Home.get_user_groups. by rewrite Hcol. Qed.

End membership.

(** ** Summary statistics *)

Section statistics.

Lemma len_map_empty {V : Type} : len (∅ : gmap cell V) = 0%Z.
Proof. unfold len. by rewrite map_size_empty. Qed.

(** The guard of an average keeps the division away from zero. *)
Lemma average_ok {V : Type} `{Size V} (d : gmap cell V) :
  ∃ q, Home.average d = Ok q ∧ (d = ∅ → q = 0%Q).
Proof.
  unfold Home.average. destruct (len d =? 0)%Z eqn:Hlen; simpl.
  - by exists 0%Q.
  - unfold Home.truediv. rewrite Hlen. eexists. split; [done|].
    intros ->. by rewrite len_map_empty in Hlen.
Qed.

Lemma union_values_empty : Home.union_values ∅ = ∅.
Proof. unfold Home.union_values. by rewrite map_to_list_empty. Qed.

Lemma generate_summary_stats_ok (ug : gmap cell (gset cell))
    (ua ga ea : gmap cell (gset string)) (pa : gset string) :
  ∃ st, Home.generate_summary_stats ug ua ga ea pa = Ok st
    ∧ Home.total_users st = len ug
    ∧ (ug = ∅ → Home.avg_group_per_user st = 0%Q)
    ∧ (ua = ∅ → Home.avg_access_per_user st = 0%Q
                ∧ Home.total_unique_accesses st = 0%Z)
    ∧ (ga = ∅ → Home.avg_access_per_group st = 0%Q).
Proof.
  unfold Home.generate_summary_stats.
  destruct (average_ok ug) as (q1 & -> & H1).
  destruct (average_ok ua) as (q2 & -> & H2).
  destruct (average_ok ga) as (q3 & -> & H3).
  simpl. eexists. split; [done|]. simpl.
  split; [done|]. split; [done|]. split; [|done].
  intros Hua. split; [by apply H2|].
  rewrite Hua, union_values_empty. done.
Qed.

End statistics.

(** ** Routing of the rows of the access table *)

Section routing.

Implicit Types (r : string → cell) (l : list (string → cell)) (k : cell).

#[local] Arguments String.append : simpl nomatch.

Lemma group_marked_not_public k : group_marked k → k ≠ public_subject.
Proof. intros [rest ->]. unfold public_subject. simpl. congruence. Qed.

Lemma access_columns_without_public df :
  access_columns df → access_columns (without_public df).
Proof. done. Qed.

(** Dropping the public rows changes no mapping routed by a test that
    rejects the public pseudo-subject. *)
Lemma routed_without_public (q : cell → bool) df :
  (∀ k, q k = true → k ≠ public_subject) →
  routed q (rows (without_public df)) = routed q (rows df).
Proof.
  intros Hq. unfold routed, without_public. simpl. f_equal.
  induction (rows df) as [|r l IH]; simpl; [done|].
  case_bool_decide as Hk; simpl.
  - destruct (q (subject r)) eqn:Hqr; [|done].
    by apply Hq in Hqr.
  - by rewrite IH.
Qed.

Lemma routed_public_None (q : cell → bool) l :
  (∀ k, q k = true → k ≠ public_subject) →
  routed q l !! public_subject = None.
Proof.
  intros Hq. rewrite routed_lookup.
  destruct (q public_subject) eqn:Hp; [|done]. by apply Hq in Hp.
Qed.

Lemma routed_lookup_row (q : cell → bool) l r :
  In r l → q (subject r) = true →
  routed q l !! subject r = Some (granted_set (subject r) l).
Proof. intros Hr Hq. apply routed_lookup_Some. eauto. Qed.

Lemma routed_dom (q : cell → bool) l k :
  k ∈ dom (routed q l) ↔ q k = true ∧ ∃ r, In r l ∧ subject r = k.
Proof.
  rewrite elem_of_dom. split.
  - intros [S HS]. apply routed_lookup_Some in HS. naive_solver.
  - intros [Hq Hr]. exists (granted_set k l). by apply routed_lookup_Some.
Qed.

Lemma granted_set_empty k l :
  (∀ r, In r l → subject r = k → no_access r) → granted_set k l = ∅.
Proof.
  intros Hno. apply set_eq. intros a. rewrite elem_of_granted_set.
  split; [|set_solver]. intros (r & Hr & Hk & Hv & Hne).
  destruct (Hno r Hr Hk) as [Hn|Hn]; rewrite Hn in Hv; [done|].
  injection Hv as <-. done.
Qed.

End routing.

(** ** The processing part of [main] *)

Section processing.

Lemma get_user_groups_returns df :
  ∃ m msgs, Home.get_user_groups df = Run (Ok m) msgs.
Proof.
  destruct (first_missing df) as [col|] eqn:Hcol.
  - rewrite (home_get_user_groups_missing df col Hcol). eauto.
  - rewrite (home_get_user_groups_assign df Hcol). eauto.
Qed.

Lemma find_extra_accesses_empty (ua ga : gmap cell (gset string))
    (pa : gset string) :
  Home.find_extra_accesses ∅ ua ga pa = ∅.
Proof. unfold Home.find_extra_accesses. apply map_fold_empty. Qed.

(** What [get_user_groups] shows and returns, whatever the frame. *)
Lemma get_user_groups_run df :
  ∃ m,
    Home.get_user_groups df
    = Run (Ok m) (match first_missing df with
                  | Some col => [missing_column_message col]
                  | None => []
                  end)
    ∧ (∀ col, first_missing df = Some col → m = ∅)
    ∧ (first_missing df = None → m = assign_groups home_groups (rows df)).
Proof.
  destruct (first_missing df) as [col|] eqn:Hcol.
  - exists ∅. split; [by apply home_get_user_groups_missing|]. done.
  - exists (assign_groups home_groups (rows df)).
    split; [by apply home_get_user_groups_assign|]. done.
Qed.

(** [main] after [get_user_groups]: the messages are those shown so far,
    the outcome is the one of the three access resolvers and of the
    statistics, in that order. *)
Lemma main_analysis_run udf mdf (m : gmap cell (gset cell)) msgs :
  Home.get_user_groups udf = Run (Ok m) msgs →
  shown (Home.main_analysis udf mdf) = "Files loaded successfully!" :: msgs
  ∧ outcome (Home.main_analysis udf mdf)
    = (ga ← Home.get_group_accesses mdf;
       ua ← Home.get_user_accesses mdf;
       pa ← Home.get_public_accesses mdf;
       stats ← Home.generate_summary_stats m ua ga
                 (Home.find_extra_accesses m ua ga pa) pa;
       Ok {| Home.an_user_groups := m;
             Home.an_group_accesses := ga;
             Home.an_user_accesses := ua;
             Home.an_public_accesses := pa;
             Home.an_extra_accesses := Home.find_extra_accesses m ua ga pa;
             Home.an_stats := stats |}).
Proof.
  intros Hm. unfold Home.main_analysis. rewrite Hm.
  unfold mbind, mret, run_bind, run_ret, result_bind, lift, st_success.
  cbn [outcome shown].
  destruct (Home.get_group_accesses mdf) as [ga|e]; cbn [outcome shown];
    [|by rewrite !app_nil_r].
  destruct (Home.get_user_accesses mdf) as [ua|e]; cbn [outcome shown];
    [|by rewrite !app_nil_r].
  destruct (Home.get_public_accesses mdf) as [pa|e]; cbn [outcome shown];
    [|by rewrite !app_nil_r].
  destruct (Home.generate_summary_stats m ua ga _ pa) as [st|e];
    cbn [outcome shown]; by rewrite !app_nil_r.
Qed.

(** The access resolvers on a table that has its subject column and no
    row. *)
Lemma resolvers_without_rows df :
  "JNUSER" ∈ columns df → rows df = [] →
  Home.get_group_accesses df = Ok ∅
  ∧ Home.get_user_accesses df = Ok ∅
  ∧ Home.get_public_accesses df = Ok ∅.
Proof.
  intros Hj Hnil.
  unfold Home.get_group_accesses, Home.get_user_accesses,
    Home.get_public_accesses.
  rewrite (getcolumn_ok _ _ Hj). unfold iterrows, select_rows.
  rewrite Hnil. done.
Qed.

Lemma get_user_accesses_without_VHFROM df :
  rows df ≠ [] → "JNUSER" ∈ columns df → "VHFROM" ∉ columns df →
  Home.get_user_accesses df = Raise (KeyError "VHFROM").
Proof.
  intros Hne Hj Hv. apply for_each_raises.
  - by rewrite iterrows_nil_iff.
  - intros x d (r & _ & ->)%in_iterrows. unfold Home.get_user_accesses_row.
    by rewrite (getitem_ok _ _ _ Hj), (getitem_missing _ _ _ Hv).
Qed.

Lemma get_group_accesses_without_VHFROM df :
  "JNUSER" ∈ columns df → "VHFROM" ∉ columns df →
  Home.get_group_accesses df = Raise (KeyError "VHFROM")
  ∨ Home.get_group_accesses df = Ok ∅.
Proof.
  intros Hj Hv. unfold Home.get_group_accesses.
  rewrite (getcolumn_ok _ _ Hj). simpl.
  apply for_each_raises_or_nil.
  intros x d (r & _ & ->)%in_iterrows. simpl.
  unfold Home.get_group_accesses_row.
  by rewrite (getitem_ok _ _ _ Hj), (getitem_missing _ _ _ Hv).
Qed.

End processing.

(** * The claims *)

(** C1. For every user of [user_groups], [find_extra_accesses] takes
    expected = public ∪ the union over the user's groups of
    [group_accesses.get(g, ∅)], actual = [user_accesses.get(u, ∅)] and
    extra = actual − expected, and has the user as a key, with value
    extra, exactly when extra is non-empty; a user that is not a key of
    [user_groups] is not a key of the result. *)
Theorem find_extra_accesses_correct (user_groups : gmap cell (gset cell))
    (user_accesses group_accesses : gmap cell (gset string))
    (public_accesses : gset string) :
  let result :=
    Home.find_extra_accesses user_groups user_accesses group_accesses
      public_accesses in
  (∀ u, result !! u
        = extra_spec user_groups user_accesses group_accesses
            public_accesses u)
  ∧ dom result ⊆ dom user_groups.
Proof.
  simpl. split.
  - intros u. apply find_extra_accesses_lookup.
  - intros u Hu. apply elem_of_dom. apply elem_of_dom in Hu.
    rewrite find_extra_accesses_lookup in Hu. by apply extra_spec_dom in Hu.
Qed.

(** C5. Adding an access identifier to [public_accesses] never grows the
    extra-access set of any user: the set computed with
    [public_accesses ∪ {a}] is included in the one computed with
    [public_accesses]. *)
Theorem find_extra_accesses_antitone (user_groups : gmap cell (gset cell))
    (user_accesses group_accesses : gmap cell (gset string))
    (public_accesses : gset string) (a : string) (u : cell) :
  default ∅ (Home.find_extra_accesses user_groups user_accesses
               group_accesses (public_accesses ∪ {[a]}) !! u)
  ⊆ default ∅ (Home.find_extra_accesses user_groups user_accesses
                 group_accesses public_accesses !! u).
Proof.
  rewrite !find_extra_accesses_lookup. unfold extra_spec.
  destruct (user_groups !! u) as [groups|]; [|done]. simpl.
  assert (Hsub : default ∅ (user_accesses !! u)
                 ∖ expected_spec group_accesses (public_accesses ∪ {[a]}) groups
               ⊆ default ∅ (user_accesses !! u)
                 ∖ expected_spec group_accesses public_accesses groups).
  { unfold expected_spec. set_solver. }
  repeat case_bool_decide; simpl; set_solver.
Qed.

(** C10. [generate_summary_stats] returns on every input, the empty
    mappings included: no division by zero is raised; each of the three
    averages is 0 when its mapping is empty, and the number of distinct
    accesses over an empty [user_accesses] is 0. *)
Theorem generate_summary_stats_total (user_groups : gmap cell (gset cell))
    (user_accesses group_accesses extra_accesses : gmap cell (gset string))
    (public_accesses : gset string) :
  ∃ stats,
    Home.generate_summary_stats user_groups user_accesses group_accesses
      extra_accesses public_accesses = Ok stats
    ∧ (user_groups = ∅ → Home.avg_group_per_user stats = 0%Q)
    ∧ (user_accesses = ∅ → Home.avg_access_per_user stats = 0%Q
                           ∧ Home.total_unique_accesses stats = 0%Z)
    ∧ (group_accesses = ∅ → Home.avg_access_per_group stats = 0%Q).
Proof.
  destruct (generate_summary_stats_ok user_groups user_accesses group_accesses
              extra_accesses public_accesses)
    as (st & Hst & _ & H1 & H2 & H3).
  by exists st.
Qed.

(** The statistics of the all-empty input. *)
Lemma generate_summary_stats_total_witness :
  ∃ stats,
    Home.generate_summary_stats ∅ ∅ ∅ ∅ ∅ = Ok stats
    ∧ Home.avg_group_per_user stats = 0%Q
    ∧ Home.avg_access_per_user stats = 0%Q
    ∧ Home.total_unique_accesses stats = 0%Z
    ∧ Home.avg_access_per_group stats = 0%Q.
Proof.
  destruct (generate_summary_stats_total ∅ ∅ ∅ ∅ ∅)
    as (st & Hst & H1 & H2 & H3).
  exists st. split; [exact Hst|].
  split; [exact (H1 eq_refl)|].
  split; [exact (proj1 (H2 eq_refl))|].
  split; [exact (proj2 (H2 eq_refl)) | exact (H3 eq_refl)].
Defined.

(** C2, as the code has it.  A row whose subject begins with "GR" is
    recorded under its full subject identifier in [group_accesses] and
    in [user_accesses] as well: [get_user_accesses] leaves out the rows
    of the public pseudo-subject only, and the two mappings hold the same
    set for the subject, with the access of the row in it. *)
Theorem group_rows_in_both_mappings (df : DataFrame) (r : string → cell) :
  access_columns df →
  In r (rows df) →
  group_marked (subject r) →
  ∃ ga ua S,
    Home.get_group_accesses df = Ok ga
    ∧ Home.get_user_accesses df = Ok ua
    ∧ ga !! subject r = Some S
    ∧ ua !! subject r = Some S
    ∧ ∀ a, grants r a → a ∈ S.
Proof.
  intros Hcols Hr Hg.
  exists (routed (str_startswith "GR" false) (rows df)),
         (routed not_public (rows df)),
         (granted_set (subject r) (rows df)).
  split; [by apply get_group_accesses_routed|].
  split; [by apply get_user_accesses_routed|].
  split; [apply routed_lookup_row; [done | by apply startswith_GR]|].
  split.
  - apply routed_lookup_row; [done|].
    by apply not_public_true, group_marked_not_public.
  - intros a Ha. apply elem_of_granted_set. by exists r.
Qed.

(** The group row of [sample_access]. *)
Lemma group_rows_in_both_mappings_witness :
  ∃ ga ua S,
    Home.get_group_accesses sample_access = Ok ga
    ∧ Home.get_user_accesses sample_access = Ok ua
    ∧ ga !! Str "GR1" = Some S
    ∧ ua !! Str "GR1" = Some S
    ∧ ∀ a, grants (mkrow [("JNUSER", Str "GR1"); ("VHFROM", Str "Y")]) a
           → a ∈ S.
Proof.
  apply (group_rows_in_both_mappings sample_access
           (mkrow [("JNUSER", Str "GR1"); ("VHFROM", Str "Y")])).
  - split; apply list_elem_of_In; simpl; auto.
  - simpl. auto.
  - exists "1". reflexivity.
Defined.

(** C2 refuted as stated: the group row of a table with that single row
    makes its subject a key of [user_accesses]. *)
Lemma group_row_enters_user_accesses :
  group_marked (Str "GR1")
  ∧ Home.get_group_accesses group_only_access = Ok {[Str "GR1" := {["X"]}]}
  ∧ ∃ ua, Home.get_user_accesses group_only_access = Ok ua
          ∧ Str "GR1" ∈ dom ua.
Proof.
  split; [by exists "1"|]. split; [vm_compute; reflexivity|].
  exists {[Str "GR1" := {["X"]}]}. split; [vm_compute; reflexivity|].
  rewrite dom_singleton_L. by apply elem_of_singleton.
Qed.

(** C4. The rows of the public pseudo-subject feed the public-access set
    and nothing else: the public accesses are what these rows grant, the
    pseudo-subject is a key of neither mapping, and both mappings are the
    ones of the table without these rows. *)
Theorem public_rows_feed_public_only (df : DataFrame) :
  access_columns df →
  ∃ ua ga pa,
    Home.get_user_accesses df = Ok ua
    ∧ Home.get_group_accesses df = Ok ga
    ∧ Home.get_public_accesses df = Ok pa
    ∧ (public_subject ∉ dom ua)
    ∧ (public_subject ∉ dom ga)
    ∧ Home.get_user_accesses (without_public df) = Ok ua
    ∧ Home.get_group_accesses (without_public df) = Ok ga
    ∧ ∀ a, a ∈ pa ↔
           ∃ r, In r (rows df) ∧ subject r = public_subject ∧ grants r a.
Proof.
  intros Hcols.
  assert (Hnp : ∀ k, not_public k = true → k ≠ public_subject)
    by (intros k; apply not_public_true).
  assert (Hgr : ∀ k, str_startswith "GR" false k = true → k ≠ public_subject).
  { intros k Hk. by apply group_marked_not_public, startswith_GR. }
  exists (routed not_public (rows df)),
         (routed (str_startswith "GR" false) (rows df)),
         (granted_set public_subject (rows df)).
  split; [by apply get_user_accesses_routed|].
  split; [by apply get_group_accesses_routed|].
  split; [by apply get_public_accesses_set|].
  split; [by apply not_elem_of_dom, routed_public_None|].
  split; [by apply not_elem_of_dom, routed_public_None|].
  split.
  { rewrite get_user_accesses_routed
      by by apply access_columns_without_public.
    by rewrite routed_without_public. }
  split.
  { rewrite get_group_accesses_routed
      by by apply access_columns_without_public.
    by rewrite routed_without_public. }
  intros a. apply elem_of_granted_set.
Qed.

(** The public row of [sample_access]. *)
Lemma public_rows_feed_public_only_witness :
  ∃ ua ga pa,
    Home.get_user_accesses sample_access = Ok ua
    ∧ Home.get_group_accesses sample_access = Ok ga
    ∧ Home.get_public_accesses sample_access = Ok pa
    ∧ (public_subject ∉ dom ua)
    ∧ (public_subject ∉ dom ga)
    ∧ Home.get_user_accesses (without_public sample_access) = Ok ua
    ∧ Home.get_group_accesses (without_public sample_access) = Ok ga
    ∧ ∀ a, a ∈ pa ↔
           ∃ r, In r (rows sample_access) ∧ subject r = public_subject
                ∧ grants r a.
Proof.
  apply (public_rows_feed_public_only sample_access).
  split; apply list_elem_of_In; simpl; auto.
Defined.

(** C8, as the code has it.  A row without access value keeps its
    subject: a subject other than the public one is a key of
    [user_accesses], a subject marked as a group is a key of
    [group_accesses]; the value is what the rows of that subject grant,
    the empty set when none of them carries an access. *)
Theorem subject_kept_without_access (df : DataFrame) (r : string → cell) :
  access_columns df →
  In r (rows df) →
  no_access r →
  ∃ ua ga,
    Home.get_user_accesses df = Ok ua
    ∧ Home.get_group_accesses df = Ok ga
    ∧ (subject r ≠ public_subject →
       ∃ S, ua !! subject r = Some S
         ∧ (∀ a, a ∈ S ↔
              ∃ r', In r' (rows df) ∧ subject r' = subject r ∧ grants r' a)
         ∧ ((∀ r', In r' (rows df) → subject r' = subject r → no_access r')
            → S = ∅))
    ∧ (group_marked (subject r) →
       ∃ S, ga !! subject r = Some S
         ∧ (∀ a, a ∈ S ↔
              ∃ r', In r' (rows df) ∧ subject r' = subject r ∧ grants r' a)
         ∧ ((∀ r', In r' (rows df) → subject r' = subject r → no_access r')
            → S = ∅)).
Proof.
  intros Hcols Hr Hno.
  exists (routed not_public (rows df)),
         (routed (str_startswith "GR" false) (rows df)).
  split; [by apply get_user_accesses_routed|].
  split; [by apply get_group_accesses_routed|].
  split.
  - intros Hnp. exists (granted_set (subject r) (rows df)).
    split; [apply routed_lookup_row; [done | by apply not_public_true]|].
    split; [intros a; apply elem_of_granted_set | apply granted_set_empty].
  - intros Hg. exists (granted_set (subject r) (rows df)).
    split; [apply routed_lookup_row; [done | by apply startswith_GR]|].
    split; [intros a; apply elem_of_granted_set | apply granted_set_empty].
Qed.

(** The row of "GR2" in [sample_access], which carries no access. *)
Lemma subject_kept_without_access_witness :
  ∃ ua ga,
    Home.get_user_accesses sample_access = Ok ua
    ∧ Home.get_group_accesses sample_access = Ok ga
    ∧ ua !! Str "GR2" = Some ∅
    ∧ ga !! Str "GR2" = Some ∅.
Proof.
  destruct (subject_kept_without_access sample_access
              (mkrow [("JNUSER", Str "GR2"); ("VHFROM", NaN)]))
    as (ua & ga & Hua & Hga & Hu & Hg).
  - split; apply list_elem_of_In; simpl; auto.
  - simpl. auto.
  - left. reflexivity.
  - exists ua, ga. split; [exact Hua|]. split; [exact Hga|].
    assert (Hrows : ∀ r', In r' (rows sample_access) →
              subject r' = Str "GR2" → no_access r').
    { simpl. intros r' [<-|[<-|[<-|[<-|[]]]]]; vm_compute; auto; discriminate. }
    assert (Hnp : subject (mkrow [("JNUSER", Str "GR2"); ("VHFROM", NaN)])
                  ≠ public_subject) by (vm_compute; discriminate).
    assert (Hgm : group_marked
                    (subject (mkrow [("JNUSER", Str "GR2"); ("VHFROM", NaN)])))
      by (exists "2"; reflexivity).
    split.
    + destruct (Hu Hnp) as (S & HS & _ & Hemp).
      rewrite (Hemp Hrows) in HS. exact HS.
    + destruct (Hg Hgm) as (S & HS & _ & Hemp).
      rewrite (Hemp Hrows) in HS. exact HS.
Defined.

(** C8 refuted as stated: "U1" is first met on a row without access,
    yet its value after resolution is not the empty set. *)
Lemma late_access_not_empty :
  no_access (mkrow [("JNUSER", Str "U1"); ("VHFROM", NaN)])
  ∧ rows late_access
    = [mkrow [("JNUSER", Str "U1"); ("VHFROM", NaN)];
       mkrow [("JNUSER", Str "U1"); ("VHFROM", Str "X")]]
  ∧ ∃ ua, Home.get_user_accesses late_access = Ok ua
          ∧ ua !! Str "U1" = Some {["X"]}
          ∧ ua !! Str "U1" ≠ Some ∅.
Proof.
  split; [by left|]. split; [reflexivity|].
  exists {[Str "U1" := {["X"]}]}. split; [vm_compute; reflexivity|].
  rewrite lookup_singleton_eq. split; [done | compute_done].
Qed.

(** C9. The group rows are the rows whose subject begins with "GR": the
    keys of [group_accesses] are exactly the subjects of that form met in
    the table, each under its full identifier and with what its rows
    grant, whether or not the subject is meant as a group. *)
Theorem group_rows_are_the_GR_rows (df : DataFrame) :
  access_columns df →
  ∃ ga,
    Home.get_group_accesses df = Ok ga
    ∧ (∀ k, k ∈ dom ga ↔
            ∃ r rest, In r (rows df) ∧ subject r = k
                      ∧ k = Str ("GR" +:+ rest))
    ∧ (∀ k S, ga !! k = Some S →
         ∀ a, a ∈ S ↔ ∃ r, In r (rows df) ∧ subject r = k ∧ grants r a).
Proof.
  intros Hcols. exists (routed (str_startswith "GR" false) (rows df)).
  split; [by apply get_group_accesses_routed|]. split.
  - intros k. rewrite routed_dom, startswith_GR. unfold group_marked.
    naive_solver.
  - intros k S HS a. apply routed_lookup_Some in HS as (_ & _ & ->).
    apply elem_of_granted_set.
Qed.

(** The groups of [sample_access]. *)
Lemma group_rows_are_the_GR_rows_witness :
  ∃ ga,
    Home.get_group_accesses sample_access = Ok ga
    ∧ (∀ k, k ∈ dom ga ↔
            ∃ r rest, In r (rows sample_access) ∧ subject r = k
                      ∧ k = Str ("GR" +:+ rest))
    ∧ (∀ k S, ga !! k = Some S →
         ∀ a, a ∈ S ↔
              ∃ r, In r (rows sample_access) ∧ subject r = k ∧ grants r a).
Proof.
  apply (group_rows_are_the_GR_rows sample_access).
  split; apply list_elem_of_In; simpl; auto.
Defined.

(** C7, as the code has it.  The membership resolver skips no row: with
    the three columns there it raises nothing, shows nothing, and the
    keys of its mapping are the user cells of all the rows, the missing
    and the empty ones included; under each key, whatever it is, stands
    the group set of the last row that has it. *)
Theorem rows_without_user_are_kept (df : DataFrame) :
  first_missing df = None →
  ∃ m,
    Home.get_user_groups df = Run (Ok m) []
    ∧ (∀ k, k ∈ dom m ↔ ∃ r, In r (rows df) ∧ user_of r = k)
    ∧ (∀ l1 r l2,
         rows df = l1 ++ r :: l2 →
         (∀ r', In r' l2 → user_of r' ≠ user_of r) →
         ∃ G, m !! user_of r = Some G
              ∧ ∀ g, g ∈ G ↔ in_resolved_groups r g).
Proof.
  intros Hcols. exists (assign_groups home_groups (rows df)).
  split; [by apply home_get_user_groups_assign|]. split.
  - intros k. rewrite assign_groups_dom, elem_of_list_to_set, list_elem_of_In.
    rewrite in_map_iff. naive_solver.
  - intros l1 r l2 Hrows Hlast. exists (list_to_set (home_groups r)).
    split; [rewrite Hrows; by apply assign_groups_last|].
    intros g. by rewrite elem_of_list_to_set, elem_of_home_groups.
Qed.

(** The two rows of [anonymous_members]; the first has no user and the
    main group "A". *)
Lemma rows_without_user_are_kept_witness :
  first_missing anonymous_members = None
  ∧ ∃ m (G : gset cell),
      Home.get_user_groups anonymous_members = Run (Ok m) []
      ∧ NaN ∈ dom m
      ∧ m !! NaN = Some G
      ∧ ∀ g, g ∈ G ↔
             in_resolved_groups
               (mkrow [("USER_NAME", NaN); ("MAIN_GROUP", Str "A");
                       ("ADDL_GROUP", NaN)]) g.
Proof.
  split; [reflexivity|].
  destruct (rows_without_user_are_kept anonymous_members)
    as (m & Hm & Hdom & Hlast); [reflexivity|].
  destruct (Hlast []
              (mkrow [("USER_NAME", NaN); ("MAIN_GROUP", Str "A");
                      ("ADDL_GROUP", NaN)])
              [mkrow [("USER_NAME", Str ""); ("MAIN_GROUP", Str "B");
                      ("ADDL_GROUP", NaN)]])
    as (G & HG & Hin).
  - reflexivity.
  - simpl. intros r' [<-|[]]. vm_compute. discriminate.
  - exists m, G. split; [exact Hm|]. split; [|split; [exact HG | exact Hin]].
    apply Hdom. eexists. split; [left; reflexivity | reflexivity].
Defined.

(** C7 refuted as stated: a row whose user cell is missing and a row
    whose user cell is the empty string each leave a key. *)
Lemma anonymous_rows_get_keys :
  ∃ m,
    Home.get_user_groups anonymous_members = Run (Ok m) []
    ∧ m !! NaN = Some {[Str "A"]}
    ∧ m !! Str "" = Some {[Str "B"]}.
Proof.
  exists {[NaN := {[Str "A"]}; Str "" := {[Str "B"]}]}.
  split; [vm_compute; reflexivity|]. split; vm_compute; reflexivity.
Qed.

(** C3, as the code has it.  For the row that names its user last, the
    group set of [Home.py] is the main group, when that cell is not
    missing, together with the tokens of the additional-groups field;
    the group set of the export page holds the user identifier as well. *)
Theorem resolved_group_set (df : DataFrame) (l1 l2 : list (string → cell))
    (r : string → cell) :
  first_missing df = None →
  rows df = l1 ++ r :: l2 →
  (∀ r', In r' l2 → user_of r' ≠ user_of r) →
  (∃ m G,
     Home.get_user_groups df = Run (Ok m) []
     ∧ m !! user_of r = Some G
     ∧ ∀ g, g ∈ G ↔ in_resolved_groups r g)
  ∧ (∃ m G,
       AccessExport.get_user_groups df = Run (Ok m) []
       ∧ m !! user_of r = Some G
       ∧ ∀ g, g ∈ G ↔ g = user_of r ∨ in_resolved_groups r g).
Proof.
  intros Hcols Hrows Hlast. split.
  - exists (assign_groups home_groups (rows df)),
           (list_to_set (home_groups r)).
    split; [by apply home_get_user_groups_assign|].
    split; [rewrite Hrows; by apply assign_groups_last|].
    intros g. by rewrite elem_of_list_to_set, elem_of_home_groups.
  - exists (assign_groups export_groups (rows df)),
           (list_to_set (export_groups r)).
    split; [by apply export_get_user_groups_assign|].
    split; [rewrite Hrows; by apply assign_groups_last|].
    intros g. by rewrite elem_of_list_to_set, elem_of_export_groups.
Qed.

(** The row of [sample_members]: main group "A", additional groups
    "B, C D". *)
Lemma resolved_group_set_witness :
  let r := mkrow [("USER_NAME", Str "U1"); ("MAIN_GROUP", Str "A");
                  ("ADDL_GROUP", Str "B, C D")] in
  (∃ m G,
     Home.get_user_groups sample_members = Run (Ok m) []
     ∧ m !! Str "U1" = Some G
     ∧ ∀ g, g ∈ G ↔ in_resolved_groups r g)
  ∧ (∃ m G,
       AccessExport.get_user_groups sample_members = Run (Ok m) []
       ∧ m !! Str "U1" = Some G
       ∧ ∀ g, g ∈ G ↔ g = Str "U1" ∨ in_resolved_groups r g).
Proof.
  intros r. apply (resolved_group_set sample_members [] [] r).
  - reflexivity.
  - reflexivity.
  - simpl. intros r' [].
Defined.

(** The example of the specification, on [Home.py]: exactly A, B, C, D. *)
Lemma home_sample_groups :
  Home.get_user_groups sample_members
  = Run (Ok {[Str "U1" := {[Str "A"; Str "B"; Str "C"; Str "D"]}]}) [].
Proof. vm_compute. reflexivity. Qed.

(** C3 refuted as stated for the export page: on the same row its group
    set has the user identifier "U1" beside A, B, C, D. *)
Lemma export_page_adds_user :
  AccessExport.get_user_groups sample_members
  = Run (Ok {[Str "U1" :=
                {[Str "U1"; Str "A"; Str "B"; Str "C"; Str "D"]}]}) []
  ∧ ({[Str "U1"; Str "A"; Str "B"; Str "C"; Str "D"]} : gset cell)
    ≠ {[Str "A"; Str "B"; Str "C"; Str "D"]}.
Proof. split; [vm_compute; reflexivity | compute_done]. Qed.

(** C6, as the code has it.  Nothing is reported per missing column and
    nothing is a format error.  For the membership table,
    [get_user_groups] shows one message, for the first required column
    that is missing, and hands back the empty mapping, and [main] goes on
    with it: the access resolvers run, no extra access is found and the
    statistics are computed, with no user.  For the access table no
    column is checked: a missing JNUSER raises [KeyError] when the
    column is read, a missing VHFROM raises [KeyError] when the first row
    is read, and raises nothing when the table has no row.  The statement
    ends where the statistics are computed. *)
Theorem missing_column_outcome (user_groups_df master_df : DataFrame) :
  let run := Home.main_analysis user_groups_df master_df in
  shown run
  = "Files loaded successfully!"
    :: match first_missing user_groups_df with
       | Some col => [missing_column_message col]
       | None => []
       end
  ∧ ("JNUSER" ∉ columns master_df →
     outcome run = Raise (KeyError "JNUSER"))
  ∧ ("JNUSER" ∈ columns master_df → "VHFROM" ∉ columns master_df →
     rows master_df ≠ [] →
     outcome run = Raise (KeyError "VHFROM"))
  ∧ ("JNUSER" ∈ columns master_df →
     "VHFROM" ∈ columns master_df ∨ rows master_df = [] →
     ∃ an,
       outcome run = Ok an
       ∧ Home.get_group_accesses master_df = Ok (Home.an_group_accesses an)
       ∧ Home.get_user_accesses master_df = Ok (Home.an_user_accesses an)
       ∧ Home.get_public_accesses master_df = Ok (Home.an_public_accesses an)
       ∧ Home.an_extra_accesses an
         = Home.find_extra_accesses (Home.an_user_groups an)
             (Home.an_user_accesses an) (Home.an_group_accesses an)
             (Home.an_public_accesses an)
       ∧ (∀ col, first_missing user_groups_df = Some col →
            Home.an_user_groups an = ∅
            ∧ Home.an_extra_accesses an = ∅
            ∧ Home.total_users (Home.an_stats an) = 0%Z)
       ∧ (first_missing user_groups_df = None →
            Home.get_user_groups user_groups_df
            = Run (Ok (Home.an_user_groups an)) [])).
Proof.
  cbv zeta.
  destruct (get_user_groups_run user_groups_df) as (m & Hm & Hmiss & Hall).
  destruct (main_analysis_run user_groups_df master_df m _ Hm) as [-> ->].
  split; [done|]. split; [|split].
  - intros Hj. unfold Home.get_group_accesses, getcolumn.
    by rewrite bool_decide_eq_false_2.
  - intros Hj Hv Hne.
    destruct (get_group_accesses_without_VHFROM master_df Hj Hv) as [->| ->];
      [done|].
    by rewrite (get_user_accesses_without_VHFROM master_df Hne Hj Hv).
  - intros Hj Hcase.
    assert (Hres : ∃ ga ua pa,
      Home.get_group_accesses master_df = Ok ga
      ∧ Home.get_user_accesses master_df = Ok ua
      ∧ Home.get_public_accesses master_df = Ok pa).
    { destruct Hcase as [Hv|Hnil].
      - assert (Hcols : access_columns master_df) by done.
        eexists _, _, _.
        split; [by apply get_group_accesses_routed|].
        split; [by apply get_user_accesses_routed|].
        by apply get_public_accesses_set.
      - destruct (resolvers_without_rows master_df Hj Hnil) as (? & ? & ?).
        by exists ∅, ∅, ∅. }
    destruct Hres as (ga & ua & pa & Hga & Hua & Hpa).
    rewrite Hga, Hua, Hpa.
    destruct (generate_summary_stats_ok m ua ga
                (Home.find_extra_accesses m ua ga pa) pa)
      as (st & Hst & Htot & _).
    unfold mbind, result_bind. rewrite Hst.
    eexists. split; [reflexivity|]. cbn.
    split; [done|]. split; [done|]. split; [done|]. split; [done|]. split.
    + intros col Hcol. rewrite (Hmiss col Hcol) in *.
      rewrite find_extra_accesses_empty. split; [done|]. split; [done|].
      rewrite Htot. apply len_map_empty.
    + intros Hnone. change (first_missing user_groups_df = None) in Hnone.
      rewrite Hm. by rewrite Hnone.
Qed.

(** [headless_members] against [sample_access]; [headless_access], which
    has a row and no JNUSER; a table with a row and no VHFROM; the same
    without its row. *)
Lemma missing_column_outcome_witness :
  (shown (Home.main_analysis headless_members sample_access)
   = ["Files loaded successfully!"; missing_column_message "MAIN_GROUP"]
   ∧ ∃ an,
       outcome (Home.main_analysis headless_members sample_access) = Ok an
       ∧ Home.an_user_groups an = ∅
       ∧ Home.an_extra_accesses an = ∅
       ∧ Home.total_users (Home.an_stats an) = 0%Z)
  ∧ outcome (Home.main_analysis headless_members headless_access)
    = Raise (KeyError "JNUSER")
  ∧ outcome (Home.main_analysis sample_members
               {| columns := ["JNUSER"];
                  rows := [mkrow [("JNUSER", Str "U1")]] |})
    = Raise (KeyError "VHFROM")
  ∧ ∃ an,
      outcome (Home.main_analysis sample_members
                 {| columns := ["JNUSER"]; rows := [] |}) = Ok an
      ∧ Home.an_user_accesses an = ∅.
Proof.
  split; [|split; [|split]].
  - destruct (missing_column_outcome headless_members sample_access)
      as (Hshown & _ & _ & Hok).
    split; [exact Hshown|].
    destruct Hok as (an & Han & _ & _ & _ & _ & Hmiss & _).
    + apply list_elem_of_In. simpl. auto.
    + left. apply list_elem_of_In. simpl. auto.
    + exists an. split; [exact Han|]. apply (Hmiss "MAIN_GROUP"). reflexivity.
  - apply (proj1 (proj2 (missing_column_outcome headless_members
                           headless_access))).
    intros Hin. apply list_elem_of_In in Hin. simpl in Hin.
    destruct Hin as [Heq|[]]. discriminate Heq.
  - apply (proj1 (proj2 (proj2 (missing_column_outcome sample_members
             {| columns := ["JNUSER"];
                rows := [mkrow [("JNUSER", Str "U1")]] |})))).
    + apply list_elem_of_In. simpl. auto.
    + intros Hin. apply list_elem_of_In in Hin. simpl in Hin.
      destruct Hin as [Heq|[]]. discriminate Heq.
    + discriminate.
  - destruct (proj2 (proj2 (proj2 (missing_column_outcome sample_members
                {| columns := ["JNUSER"]; rows := [] |}))))
      as (an & Han & _ & Hua & _).
    + apply list_elem_of_In. simpl. auto.
    + right. reflexivity.
    + exists an. split; [exact Han|].
      assert (Hc : Home.get_user_accesses
                     {| columns := ["JNUSER"]; rows := [] |} = Ok ∅)
        by reflexivity.
      rewrite Hc in Hua. by injection Hua.
Defined.

(** C6 refuted as stated: with two required columns missing, one message
    is shown and the processing is not stopped: it yields results, among
    them the groups of the access table. *)
Lemma missing_column_partial_results :
  ("MAIN_GROUP" ∉ columns headless_members)
  ∧ ("ADDL_GROUP" ∉ columns headless_members)
  ∧ ∃ an,
      Home.main_analysis headless_members sample_access
      = Run (Ok an)
          ["Files loaded successfully!";
           "Missing required column: MAIN_GROUP. Please check your file."]
      ∧ Home.an_group_accesses an
        = {[Str "GR1" := {["Y"]}; Str "GR2" := ∅]}
      ∧ Home.an_public_accesses an = {["Z"]}.
Proof.
  split; [compute_done|]. split; [compute_done|].
  eexists. split; [vm_compute; reflexivity|].
  split; vm_compute; reflexivity.
Qed.

(** * Further properties of the code *)

(** ** The membership resolvers, on any frame *)

Section membership_more.

Implicit Types (r : string → cell) (l : list (string → cell)) (u g : cell).

(** The entry of [u]: the group set of the last row that names [u]. *)
Lemma assign_groups_lookup (groups_of : (string → cell) → list cell) l u :
  assign_groups groups_of l !! u
  = (λ r, list_to_set (groups_of r))
      <$> last (List.filter (λ r, bool_decide (user_of r = u)) l).
Proof.
  unfold assign_groups.
  assert (Hgen : ∀ l' (m : gmap cell (gset cell)),
    foldl (λ m' r0, <[user_of r0 := list_to_set (groups_of r0)]> m') m l' !! u
    = match last (List.filter (λ r, bool_decide (user_of r = u)) l') with
      | Some r => Some (list_to_set (groups_of r))
      | None => m !! u
      end).
  { induction l' as [|r0 l' IH]; intros m; [done|].
    cbn [foldl List.filter]. rewrite IH. case_bool_decide as Hu.
    - rewrite last_cons.
      destruct (last (List.filter _ l')); [done|].
      by rewrite <- Hu, lookup_insert_eq.
    - destruct (last (List.filter _ l')); [done|].
      by rewrite lookup_insert_ne. }
  rewrite Hgen, lookup_empty. by destruct (last _).
Qed.

Lemma assign_groups_lookup_Some (groups_of : (string → cell) → list cell)
    l u (G : gset cell) :
  assign_groups groups_of l !! u = Some G →
  ∃ r, In r l ∧ user_of r = u ∧ G = list_to_set (groups_of r).
Proof.
  rewrite assign_groups_lookup. intros HG.
  apply fmap_Some in HG as (r & Hlast & ->).
  apply last_Some_elem_of, list_elem_of_In, filter_In in Hlast as [Hr Hu].
  apply bool_decide_eq_true in Hu. by exists r.
Qed.

End membership_more.

(** ** The guard on the required columns *)

(** X1. Whatever the frame, [get_user_groups] raises nothing, on either
    page.  With the three required columns it shows nothing; otherwise
    it shows one message, for the first required column that is missing
    in the order USER_NAME, MAIN_GROUP, ADDL_GROUP, and hands back the
    empty mapping. *)
Theorem get_user_groups_guard (df : DataFrame) :
  ((∀ c, c ∈ required_columns → c ∈ columns df)
   ∧ (∃ m, Home.get_user_groups df = Run (Ok m) [])
   ∧ (∃ m, AccessExport.get_user_groups df = Run (Ok m) []))
  ∨ (∃ before col after,
       required_columns = before ++ col :: after
       ∧ (∀ c, c ∈ before → c ∈ columns df)
       ∧ (col ∉ columns df)
       ∧ Home.get_user_groups df = Run (Ok ∅) [missing_column_message col]
       ∧ AccessExport.get_user_groups df
         = Run (Ok ∅) [missing_column_message col]).
Proof.
  destruct (first_missing df) as [col|] eqn:Hcol.
  - right.
    assert (Hh : Home.get_user_groups df
                 = Run (Ok ∅) [missing_column_message col])
      by by apply home_get_user_groups_missing.
    assert (He : AccessExport.get_user_groups df
                 = Run (Ok ∅) [missing_column_message col])
      by (unfold AccessExport.get_user_groups; by rewrite Hcol).
    unfold first_missing, required_columns in Hcol. simpl in Hcol.
    case_bool_decide as H1; simpl in Hcol.
    + case_bool_decide as H2; simpl in Hcol.
      * case_bool_decide as H3; simpl in Hcol; [done|].
        injection Hcol as <-.
        exists ["USER_NAME"; "MAIN_GROUP"], "ADDL_GROUP", [].
        split; [done|]. split; [|done].
        intros c [->|[->|[]%elem_of_nil]%elem_of_cons]%elem_of_cons; done.
      * injection Hcol as <-.
        exists ["USER_NAME"], "MAIN_GROUP", ["ADDL_GROUP"].
        split; [done|]. split; [|done].
        intros c [->|[]%elem_of_nil]%elem_of_cons; done.
    + injection Hcol as <-.
      exists [], "USER_NAME", ["MAIN_GROUP"; "ADDL_GROUP"].
      split; [done|]. split; [|done]. intros c []%elem_of_nil.
  - left. pose proof (proj1 (first_missing_None df) Hcol) as (Hu & Hm & Ha).
    split.
    + unfold required_columns.
      intros c [->|[->|[->|[]%elem_of_nil]%elem_of_cons]%elem_of_cons]%elem_of_cons;
        done.
    + split; eexists.
      * by apply home_get_user_groups_assign.
      * by apply export_get_user_groups_assign.
Qed.

(** ** What the group sets hold *)

(** X2. On the export page every user is a member of its own group set:
    whatever the frame, the set stored under a key holds that key. *)
Theorem export_user_in_own_groups (df : DataFrame) :
  ∃ m msgs,
    AccessExport.get_user_groups df = Run (Ok m) msgs
    ∧ ∀ u (G : gset cell), m !! u = Some G → u ∈ G.
Proof.
  destruct (first_missing df) as [col|] eqn:Hcol.
  - exists ∅, [missing_column_message col]. split.
    + unfold AccessExport.get_user_groups. by rewrite Hcol.
    + intros u G HG. by rewrite lookup_empty in HG.
  - exists (assign_groups export_groups (rows df)), [].
    split; [by apply export_get_user_groups_assign|].
    intros u G HG. apply assign_groups_lookup_Some in HG as (r & _ & <- & ->).
    apply elem_of_list_to_set, elem_of_export_groups. by left.
Qed.

(** On [sample_members]. *)
Lemma export_user_in_own_groups_witness :
  ∃ m msgs,
    AccessExport.get_user_groups sample_members = Run (Ok m) msgs
    ∧ ∀ u (G : gset cell), m !! u = Some G → u ∈ G.
Proof. exact (export_user_in_own_groups sample_members). Defined.

(** X3. On the home page a group set never holds the missing value:
    every group of every user is a string, the main group of a row of
    that user or a token of its additional-groups field. *)
Theorem home_groups_are_strings (df : DataFrame) :
  ∃ m msgs,
    Home.get_user_groups df = Run (Ok m) msgs
    ∧ ∀ u (G : gset cell) g,
        m !! u = Some G → g ∈ G →
        (∃ s, g = Str s)
        ∧ ∃ r, In r (rows df) ∧ user_of r = u ∧ in_resolved_groups r g.
Proof.
  destruct (first_missing df) as [col|] eqn:Hcol.
  - exists ∅, [missing_column_message col].
    split; [by apply home_get_user_groups_missing|].
    intros u G g HG. by rewrite lookup_empty in HG.
  - exists (assign_groups home_groups (rows df)), [].
    split; [by apply home_get_user_groups_assign|].
    intros u G g HG Hg.
    apply assign_groups_lookup_Some in HG as (r & Hr & Hu & ->).
    apply elem_of_list_to_set, elem_of_home_groups in Hg.
    split; [|by exists r].
    destruct Hg as [[-> Hna] | (s & t & _ & _ & ->)]; [|by exists t].
    destruct (r "MAIN_GROUP") as [|s]; [done | by exists s].
Qed.

(** On [sample_members]. *)
Lemma home_groups_are_strings_witness :
  ∃ m msgs,
    Home.get_user_groups sample_members = Run (Ok m) msgs
    ∧ ∀ u (G : gset cell) g,
        m !! u = Some G → g ∈ G →
        (∃ s, g = Str s)
        ∧ ∃ r, In r (rows sample_members) ∧ user_of r = u
               ∧ in_resolved_groups r g.
Proof. exact (home_groups_are_strings sample_members). Defined.

(** X4. The last row of a user wins: a row followed, later in the
    table, by a row of the same user changes nothing on either page. *)
Theorem shadowed_row_has_no_effect (cols : list string)
    (l1 l2 : list (string → cell)) (r r' : string → cell) :
  In r' l2 →
  user_of r' = user_of r →
  Home.get_user_groups {| columns := cols; rows := l1 ++ r :: l2 |}
  = Home.get_user_groups {| columns := cols; rows := l1 ++ l2 |}
  ∧ AccessExport.get_user_groups {| columns := cols; rows := l1 ++ r :: l2 |}
    = AccessExport.get_user_groups {| columns := cols; rows := l1 ++ l2 |}.
Proof.
  intros Hr' Hu.
  assert (Hassign : ∀ groups_of,
    assign_groups groups_of (l1 ++ r :: l2) = assign_groups groups_of (l1 ++ l2)).
  { intros groups_of. apply map_eq. intros u.
    rewrite !assign_groups_lookup. f_equal.
    rewrite !List.filter_app. cbn [List.filter].
    case_bool_decide as Hru; [|done].
    assert (Hne : List.filter (λ r0, bool_decide (user_of r0 = u)) l2 ≠ []).
    { intros Hnil.
      assert (Hin : In r' (List.filter (λ r0, bool_decide (user_of r0 = u)) l2)).
      { apply filter_In. split; [done|]. apply bool_decide_eq_true. congruence. }
      rewrite Hnil in Hin. done. }
    destruct (List.filter (λ r0, bool_decide (user_of r0 = u)) l2) as [|r2 fl] eqn:Hfl;
      [done|].
    rewrite !last_app. rewrite last_cons_cons. done. }
  set (df1 := {| columns := cols; rows := l1 ++ r :: l2 |}).
  set (df2 := {| columns := cols; rows := l1 ++ l2 |}).
  assert (Hfm : first_missing df1 = first_missing df2) by done.
  destruct (first_missing df2) as [col|] eqn:Hcol.
  - split.
    + rewrite (home_get_user_groups_missing df1 col Hfm).
      by rewrite (home_get_user_groups_missing df2 col Hcol).
    + unfold AccessExport.get_user_groups. by rewrite Hfm, Hcol.
  - split.
    + rewrite (home_get_user_groups_assign df1 Hfm).
      rewrite (home_get_user_groups_assign df2 Hcol).
      unfold df1, df2. simpl. by rewrite Hassign.
    + rewrite (export_get_user_groups_assign df1 Hfm).
      rewrite (export_get_user_groups_assign df2 Hcol).
      unfold df1, df2. simpl. by rewrite Hassign.
Qed.

(** A first row of "U1" shadowed by the row of [sample_members]. *)
Lemma shadowed_row_has_no_effect_witness :
  let r := mkrow [("USER_NAME", Str "U1"); ("MAIN_GROUP", Str "Z");
                  ("ADDL_GROUP", NaN)] in
  let r' := mkrow [("USER_NAME", Str "U1"); ("MAIN_GROUP", Str "A");
                   ("ADDL_GROUP", Str "B, C D")] in
  Home.get_user_groups {| columns := required_columns; rows := [] ++ r :: [r'] |}
  = Home.get_user_groups {| columns := required_columns; rows := [] ++ [r'] |}
  ∧ AccessExport.get_user_groups
      {| columns := required_columns; rows := [] ++ r :: [r'] |}
    = AccessExport.get_user_groups
        {| columns := required_columns; rows := [] ++ [r'] |}.
Proof.
  intros r r'. apply (shadowed_row_has_no_effect required_columns [] [r'] r r').
  - simpl. auto.
  - reflexivity.
Defined.

(** ** Missing columns of the access table *)

Section access_errors.

Implicit Types (r : string → cell) (l : list (string → cell)) (k : cell).

Lemma export_get_user_accesses_routed df :
  access_columns df →
  AccessExport.get_user_accesses df = Ok (routed (λ _, true) (rows df)).
Proof.
  intros [Hj Hv]. unfold AccessExport.get_user_accesses, routed.
  rewrite (for_each_iterrows _ (λ r d, record_row d r)).
  - f_equal. f_equal. induction (rows df) as [|r l IH]; simpl; [done|].
    by rewrite <- IH.
  - intros r d. unfold AccessExport.get_user_accesses_row.
    by rewrite (getitem_ok _ _ _ Hj), (getitem_ok _ _ _ Hv).
Qed.

End access_errors.

(** X5. [get_user_accesses] reads the two columns row by row, on either
    page: a table without rows gives the empty mapping whatever its
    columns; with a row, a missing JNUSER raises [KeyError] for it, and a
    missing VHFROM (JNUSER being there) raises [KeyError] for VHFROM,
    also when every row is a row of the public pseudo-subject. *)
Theorem get_user_accesses_missing_column (df : DataFrame) :
  (rows df = [] →
     Home.get_user_accesses df = Ok ∅
     ∧ AccessExport.get_user_accesses df = Ok ∅)
  ∧ (rows df ≠ [] → "JNUSER" ∉ columns df →
       Home.get_user_accesses df = Raise (KeyError "JNUSER")
       ∧ AccessExport.get_user_accesses df = Raise (KeyError "JNUSER"))
  ∧ (rows df ≠ [] → "JNUSER" ∈ columns df → "VHFROM" ∉ columns df →
       Home.get_user_accesses df = Raise (KeyError "VHFROM")
       ∧ AccessExport.get_user_accesses df = Raise (KeyError "VHFROM")).
Proof.
  split; [|split].
  - intros Hnil. unfold Home.get_user_accesses, AccessExport.get_user_accesses.
    apply iterrows_nil_iff in Hnil. by rewrite Hnil.
  - intros Hne Hj.
    assert (Hne' : iterrows df ≠ []) by by rewrite iterrows_nil_iff.
    split; apply for_each_raises; try done.
    + intros x d (r & _ & ->)%in_iterrows. unfold Home.get_user_accesses_row.
      by rewrite (getitem_missing _ _ _ Hj).
    + intros x d (r & _ & ->)%in_iterrows.
      unfold AccessExport.get_user_accesses_row.
      by rewrite (getitem_missing _ _ _ Hj).
  - intros Hne Hj Hv.
    assert (Hne' : iterrows df ≠ []) by by rewrite iterrows_nil_iff.
    split; apply for_each_raises; try done.
    + intros x d (r & _ & ->)%in_iterrows. unfold Home.get_user_accesses_row.
      by rewrite (getitem_ok _ _ _ Hj), (getitem_missing _ _ _ Hv).
    + intros x d (r & _ & ->)%in_iterrows.
      unfold AccessExport.get_user_accesses_row.
      by rewrite (getitem_ok _ _ _ Hj), (getitem_missing _ _ _ Hv).
Qed.

(** [headless_access] has a row and no JNUSER; without its row it gives
    the empty mapping. *)
Lemma get_user_accesses_missing_column_witness :
  (Home.get_user_accesses {| columns := ["VHFROM"]; rows := [] |} = Ok ∅
   ∧ AccessExport.get_user_accesses {| columns := ["VHFROM"]; rows := [] |}
     = Ok ∅)
  ∧ (Home.get_user_accesses headless_access = Raise (KeyError "JNUSER")
     ∧ AccessExport.get_user_accesses headless_access
       = Raise (KeyError "JNUSER"))
  ∧ (Home.get_user_accesses
       {| columns := ["JNUSER"];
          rows := [mkrow [("JNUSER", Str "*PUBLIC")]] |}
     = Raise (KeyError "VHFROM")
     ∧ AccessExport.get_user_accesses
         {| columns := ["JNUSER"];
            rows := [mkrow [("JNUSER", Str "*PUBLIC")]] |}
       = Raise (KeyError "VHFROM")).
Proof.
  split; [|split].
  - apply (proj1 (get_user_accesses_missing_column
                    {| columns := ["VHFROM"]; rows := [] |})).
    reflexivity.
  - apply (proj1 (proj2 (get_user_accesses_missing_column headless_access))).
    + discriminate.
    + intros Hin. apply list_elem_of_In in Hin. simpl in Hin.
      destruct Hin as [Heq|[]]. discriminate Heq.
  - apply (proj2 (proj2 (get_user_accesses_missing_column
             {| columns := ["JNUSER"];
                rows := [mkrow [("JNUSER", Str "*PUBLIC")]] |}))).
    + discriminate.
    + apply list_elem_of_In. simpl. auto.
    + intros Hin. apply list_elem_of_In in Hin. simpl in Hin.
      destruct Hin as [Heq|[]]. discriminate Heq.
Defined.

(** X6. [get_group_accesses] reads the JNUSER column before any row: a
    table without that column raises [KeyError] even when it has no
    rows.  With JNUSER and without VHFROM it raises [KeyError] for VHFROM
    exactly when some subject begins with "GR", and gives the empty
    mapping otherwise. *)
Theorem get_group_accesses_missing_column (df : DataFrame) :
  ("JNUSER" ∉ columns df →
     Home.get_group_accesses df = Raise (KeyError "JNUSER"))
  ∧ ("JNUSER" ∈ columns df → "VHFROM" ∉ columns df →
       (∃ r, In r (rows df) ∧ group_marked (subject r)) →
       Home.get_group_accesses df = Raise (KeyError "VHFROM"))
  ∧ ("JNUSER" ∈ columns df → "VHFROM" ∉ columns df →
       (∀ r, In r (rows df) → ¬ group_marked (subject r)) →
       Home.get_group_accesses df = Ok ∅).
Proof.
  split; [|split].
  - intros Hj. unfold Home.get_group_accesses, getcolumn.
    by rewrite bool_decide_eq_false_2.
  - intros Hj Hv (r & Hr & Hg). unfold Home.get_group_accesses.
    rewrite (getcolumn_ok _ _ Hj). simpl.
    apply for_each_raises.
    + rewrite iterrows_nil_iff, select_rows_rows. intros Hnil.
      assert (Hin : In r (List.filter
                (λ r0, str_startswith "GR" false (r0 "JNUSER")) (rows df))).
      { apply filter_In. split; [done|]. by apply startswith_GR. }
      rewrite Hnil in Hin. done.
    + intros x d (r0 & _ & ->)%in_iterrows. simpl.
      unfold Home.get_group_accesses_row.
      by rewrite (getitem_ok _ _ _ Hj), (getitem_missing _ _ _ Hv).
  - intros Hj Hv Hno. unfold Home.get_group_accesses.
    rewrite (getcolumn_ok _ _ Hj). simpl.
    assert (Hnil : iterrows (select_rows df
              (map (str_startswith "GR" false)
                 (map (λ r, r "JNUSER") (rows df)))) = []).
    { rewrite iterrows_nil_iff, select_rows_rows.
      induction (rows df) as [|r l IH]; simpl; [done|].
      destruct (str_startswith "GR" false (r "JNUSER")) eqn:Hs.
      - apply startswith_GR in Hs. exfalso. apply (Hno r); [by left | done].
      - apply IH. intros r0 Hr0. apply Hno. by right. }
    by rewrite Hnil.
Qed.

(** [headless_access] lacks JNUSER; a table with JNUSER only raises for
    VHFROM with a group row and gives nothing with a user row. *)
Lemma get_group_accesses_missing_column_witness :
  Home.get_group_accesses {| columns := ["VHFROM"]; rows := [] |}
  = Raise (KeyError "JNUSER")
  ∧ Home.get_group_accesses
      {| columns := ["JNUSER"]; rows := [mkrow [("JNUSER", Str "GR1")]] |}
    = Raise (KeyError "VHFROM")
  ∧ Home.get_group_accesses
      {| columns := ["JNUSER"]; rows := [mkrow [("JNUSER", Str "U1")]] |}
    = Ok ∅.
Proof.
  split; [|split].
  - apply (proj1 (get_group_accesses_missing_column
                    {| columns := ["VHFROM"]; rows := [] |})).
    intros Hin. apply list_elem_of_In in Hin. simpl in Hin.
    destruct Hin as [Heq|[]]. discriminate Heq.
  - apply (proj1 (proj2 (get_group_accesses_missing_column
             {| columns := ["JNUSER"];
                rows := [mkrow [("JNUSER", Str "GR1")]] |}))).
    + apply list_elem_of_In. simpl. auto.
    + intros Hin. apply list_elem_of_In in Hin. simpl in Hin.
      destruct Hin as [Heq|[]]. discriminate Heq.
    + exists (mkrow [("JNUSER", Str "GR1")]). split; [simpl; auto|].
      exists "1". reflexivity.
  - apply (proj2 (proj2 (get_group_accesses_missing_column
             {| columns := ["JNUSER"];
                rows := [mkrow [("JNUSER", Str "U1")]] |}))).
    + apply list_elem_of_In. simpl. auto.
    + intros Hin. apply list_elem_of_In in Hin. simpl in Hin.
      destruct Hin as [Heq|[]]. discriminate Heq.
    + simpl. intros r [<-|[]] [rest Heq]. vm_compute in Heq. discriminate Heq.
Defined.

(** X7. [get_public_accesses] behaves alike: without JNUSER it raises
    [KeyError] whatever the rows; with JNUSER and without VHFROM it
    raises exactly when the table has a row of the public
    pseudo-subject, and gives the empty set otherwise. *)
Theorem get_public_accesses_missing_column (df : DataFrame) :
  ("JNUSER" ∉ columns df →
     Home.get_public_accesses df = Raise (KeyError "JNUSER"))
  ∧ ("JNUSER" ∈ columns df → "VHFROM" ∉ columns df →
       (∃ r, In r (rows df) ∧ subject r = public_subject) →
       Home.get_public_accesses df = Raise (KeyError "VHFROM"))
  ∧ ("JNUSER" ∈ columns df → "VHFROM" ∉ columns df →
       (∀ r, In r (rows df) → subject r ≠ public_subject) →
       Home.get_public_accesses df = Ok ∅).
Proof.
  split; [|split].
  - intros Hj. unfold Home.get_public_accesses, getcolumn.
    by rewrite bool_decide_eq_false_2.
  - intros Hj Hv (r & Hr & Hp). unfold Home.get_public_accesses.
    rewrite (getcolumn_ok _ _ Hj). simpl.
    apply for_each_raises.
    + rewrite iterrows_nil_iff, select_rows_rows. intros Hnil.
      assert (Hin : In r (List.filter
                (λ r0, cell_eq_str "*PUBLIC" (r0 "JNUSER")) (rows df))).
      { apply filter_In. split; [done|]. by apply bool_decide_eq_true. }
      rewrite Hnil in Hin. done.
    + intros x d (r0 & _ & ->)%in_iterrows. simpl.
      unfold Home.get_public_accesses_row.
      by rewrite (getitem_missing _ _ _ Hv).
  - intros Hj Hv Hno. unfold Home.get_public_accesses.
    rewrite (getcolumn_ok _ _ Hj). simpl.
    assert (Hnil : iterrows (select_rows df
              (map (cell_eq_str "*PUBLIC")
                 (map (λ r, r "JNUSER") (rows df)))) = []).
    { rewrite iterrows_nil_iff, select_rows_rows.
      induction (rows df) as [|r l IH]; simpl; [done|].
      unfold cell_eq_str at 1. case_bool_decide as Hs.
      - exfalso. apply (Hno r); [by left | done].
      - apply IH. intros r0 Hr0. apply Hno. by right. }
    by rewrite Hnil.
Qed.

(** The same three tables, with a public row for the second. *)
Lemma get_public_accesses_missing_column_witness :
  Home.get_public_accesses {| columns := ["VHFROM"]; rows := [] |}
  = Raise (KeyError "JNUSER")
  ∧ Home.get_public_accesses
      {| columns := ["JNUSER"]; rows := [mkrow [("JNUSER", Str "*PUBLIC")]] |}
    = Raise (KeyError "VHFROM")
  ∧ Home.get_public_accesses
      {| columns := ["JNUSER"]; rows := [mkrow [("JNUSER", Str "U1")]] |}
    = Ok ∅.
Proof.
  split; [|split].
  - apply (proj1 (get_public_accesses_missing_column
                    {| columns := ["VHFROM"]; rows := [] |})).
    intros Hin. apply list_elem_of_In in Hin. simpl in Hin.
    destruct Hin as [Heq|[]]. discriminate Heq.
  - apply (proj1 (proj2 (get_public_accesses_missing_column
             {| columns := ["JNUSER"];
                rows := [mkrow [("JNUSER", Str "*PUBLIC")]] |}))).
    + apply list_elem_of_In. simpl. auto.
    + intros Hin. apply list_elem_of_In in Hin. simpl in Hin.
      destruct Hin as [Heq|[]]. discriminate Heq.
    + exists (mkrow [("JNUSER", Str "*PUBLIC")]). split; [simpl; auto|].
      reflexivity.
  - apply (proj2 (proj2 (get_public_accesses_missing_column
             {| columns := ["JNUSER"];
                rows := [mkrow [("JNUSER", Str "U1")]] |}))).
    + apply list_elem_of_In. simpl. auto.
    + intros Hin. apply list_elem_of_In in Hin. simpl in Hin.
      destruct Hin as [Heq|[]]. discriminate Heq.
    + simpl. intros r [<-|[]] Heq. vm_compute in Heq. discriminate Heq.
Defined.

(** ** How the mappings of one access table relate *)

(** X8. [group_accesses] is [user_accesses] cut down to the keys that
    begin with "GR": on such a key the two mappings agree, any other key
    is absent from [group_accesses]; so every entry of [group_accesses]
    is an entry of [user_accesses]. *)
Theorem group_accesses_within_user_accesses (df : DataFrame) :
  access_columns df →
  ∃ ga ua,
    Home.get_group_accesses df = Ok ga
    ∧ Home.get_user_accesses df = Ok ua
    ∧ (∀ k, group_marked k → ga !! k = ua !! k)
    ∧ (∀ k, ¬ group_marked k → ga !! k = None)
    ∧ ga ⊆ ua.
Proof.
  intros Hcols.
  exists (routed (str_startswith "GR" false) (rows df)),
         (routed not_public (rows df)).
  split; [by apply get_group_accesses_routed|].
  split; [by apply get_user_accesses_routed|].
  assert (H1 : ∀ k, group_marked k →
    routed (str_startswith "GR" false) (rows df) !! k
    = routed not_public (rows df) !! k).
  { intros k Hg. rewrite !routed_lookup.
    rewrite (proj2 (startswith_GR k) Hg).
    by rewrite (proj2 (not_public_true k) (group_marked_not_public k Hg)). }
  assert (H2 : ∀ k, ¬ group_marked k →
    routed (str_startswith "GR" false) (rows df) !! k = None).
  { intros k Hg. rewrite routed_lookup.
    destruct (str_startswith "GR" false k) eqn:Hs; [|done].
    by apply startswith_GR in Hs. }
  split; [done|]. split; [done|].
  apply map_subseteq_spec. intros k S HS.
  destruct (str_startswith "GR" false k) eqn:Hs.
  - apply startswith_GR in Hs. by rewrite <- H1.
  - rewrite H2 in HS; [done|]. intros Hg%startswith_GR. congruence.
Qed.

(** On [sample_access]. *)
Lemma group_accesses_within_user_accesses_witness :
  ∃ ga ua,
    Home.get_group_accesses sample_access = Ok ga
    ∧ Home.get_user_accesses sample_access = Ok ua
    ∧ (∀ k, group_marked k → ga !! k = ua !! k)
    ∧ (∀ k, ¬ group_marked k → ga !! k = None)
    ∧ ga ⊆ ua.
Proof.
  apply (group_accesses_within_user_accesses sample_access).
  split; apply list_elem_of_In; simpl; auto.
Defined.

(** X9. The export page keeps the public pseudo-subject among the
    users: its [get_user_accesses] is the one of the home page with, when
    the table has a public row, one more entry, under "*PUBLIC", holding
    the public accesses. *)
Theorem export_user_accesses_keep_public (df : DataFrame) :
  access_columns df →
  ∃ ua_export ua_home pa,
    AccessExport.get_user_accesses df = Ok ua_export
    ∧ Home.get_user_accesses df = Ok ua_home
    ∧ Home.get_public_accesses df = Ok pa
    ∧ ua_home = delete public_subject ua_export
    ∧ ((∃ r, In r (rows df) ∧ subject r = public_subject) →
       ua_export !! public_subject = Some pa)
    ∧ ((∀ r, In r (rows df) → subject r ≠ public_subject) →
       ua_export = ua_home ∧ pa = ∅).
Proof.
  intros Hcols.
  exists (routed (λ _, true) (rows df)), (routed not_public (rows df)),
         (granted_set public_subject (rows df)).
  split; [by apply export_get_user_accesses_routed|].
  split; [by apply get_user_accesses_routed|].
  split; [by apply get_public_accesses_set|].
  assert (Hdel : routed not_public (rows df)
                 = delete public_subject (routed (λ _, true) (rows df))).
  { apply map_eq. intros k. rewrite lookup_delete, !routed_lookup.
    unfold not_public. destruct (decide (public_subject = k)) as [<-|Hne].
    - by rewrite bool_decide_eq_true_2.
    - rewrite (bool_decide_eq_false_2 (k = public_subject)) by congruence.
      done. }
  split; [done|]. split.
  - intros Hex. by apply routed_lookup_Some.
  - intros Hno. split.
    + rewrite Hdel. symmetry. apply delete_id.
      rewrite routed_lookup. simpl. rewrite bool_decide_eq_false_2; [done|].
      intros (r & Hr%list_elem_of_In & Hk)%Exists_exists. by apply (Hno r).
    + apply granted_set_empty. intros r Hr Hk. by apply Hno in Hr.
Qed.

(** On [sample_access], which has a public row. *)
Lemma export_user_accesses_keep_public_witness :
  ∃ ua_export ua_home pa,
    AccessExport.get_user_accesses sample_access = Ok ua_export
    ∧ Home.get_user_accesses sample_access = Ok ua_home
    ∧ Home.get_public_accesses sample_access = Ok pa
    ∧ ua_home = delete public_subject ua_export
    ∧ ua_export !! public_subject = Some pa.
Proof.
  destruct (export_user_accesses_keep_public sample_access)
    as (ue & uh & pa & He & Hh & Hp & Hdel & Hpub & _).
  - split; apply list_elem_of_In; simpl; auto.
  - exists ue, uh, pa. split; [exact He|]. split; [exact Hh|].
    split; [exact Hp|]. split; [exact Hdel|]. apply Hpub.
    exists (mkrow [("JNUSER", Str "*PUBLIC"); ("VHFROM", Str "Z")]).
    split; [simpl; auto | reflexivity].
Defined.

(** ** The reconciliation: edges and algebra *)

Section reconciliation_more.

Implicit Types (ug : gmap cell (gset cell)) (ua ga : gmap cell (gset string))
  (pa : gset string) (u g : cell) (a : string).

Lemma len_nonneg {C : Type} `{Size C} (x : C) : (0 ≤ len x)%Z.
Proof. unfold len. lia. Qed.

Lemma len_set_pos_iff (X : gset string) : (0 < len X)%Z ↔ X ≠ ∅.
Proof.
  rewrite <- len_zero_iff, Z.eqb_eq. pose proof (len_nonneg X). lia.
Qed.

(** An entry of the result is a non-empty part of the user's accesses. *)
Lemma find_extra_accesses_lookup_Some ug ua ga pa u (X : gset string) :
  Home.find_extra_accesses ug ua ga pa !! u = Some X →
  X ≠ ∅ ∧ X ⊆ default ∅ (ua !! u) ∧ is_Some (ug !! u).
Proof.
  rewrite find_extra_accesses_lookup. unfold extra_spec.
  destruct (ug !! u) as [G|]; [|done].
  case_bool_decide as HX; [done|]. intros [= <-].
  split; [done|]. split; [set_solver | eauto].
Qed.

Lemma find_extra_accesses_dom ug ua ga pa :
  dom (Home.find_extra_accesses ug ua ga pa) ⊆ dom ug.
Proof.
  intros u [X HX]%elem_of_dom. apply elem_of_dom.
  by apply find_extra_accesses_lookup_Some in HX as (_ & _ & ?).
Qed.

Lemma len_map_dom {V : Type} (m : gmap cell V) :
  len m = Z.of_nat (size (dom m)).
Proof. unfold len. by rewrite size_dom. Qed.

End reconciliation_more.

(** X10. A membership in a group whose identifier does not begin with
    "GR" explains nothing: with the group mapping of an access table, the
    extra accesses are those found after dropping every such group from
    the users' group sets. *)
Theorem unmarked_groups_explain_nothing (df : DataFrame)
    (user_groups : gmap cell (gset cell))
    (user_accesses : gmap cell (gset string)) (public_accesses : gset string) :
  access_columns df →
  ∃ ga,
    Home.get_group_accesses df = Ok ga
    ∧ Home.find_extra_accesses user_groups user_accesses ga public_accesses
      = Home.find_extra_accesses (marked_groups <$> user_groups)
          user_accesses ga public_accesses.
Proof.
  intros Hcols. exists (routed (str_startswith "GR" false) (rows df)).
  split; [by apply get_group_accesses_routed|].
  apply map_eq. intros u. rewrite !find_extra_accesses_lookup.
  unfold extra_spec. rewrite lookup_fmap.
  destruct (user_groups !! u) as [G|]; [|done]. simpl.
  assert (Hexp : expected_spec (routed (str_startswith "GR" false) (rows df))
                   public_accesses (marked_groups G)
                 = expected_spec (routed (str_startswith "GR" false) (rows df))
                     public_accesses G).
  { apply set_eq. intros a. rewrite !elem_of_expected_spec.
    split; (intros [?|(g & S & Hg & HS & Ha)]; [by left | right]).
    - exists g, S. unfold marked_groups in Hg.
      apply elem_of_filter in Hg as [_ Hg]. done.
    - exists g, S. split; [|done]. apply elem_of_filter. split; [|done].
      by apply routed_lookup_Some in HS as (? & _ & _). }
  by rewrite Hexp.
Qed.

(** "U1" in the groups "G1" and "GR1", against [sample_access]. *)
Lemma unmarked_groups_explain_nothing_witness :
  ∃ ga,
    Home.get_group_accesses sample_access = Ok ga
    ∧ Home.find_extra_accesses {[Str "U1" := {[Str "G1"; Str "GR1"]}]}
        {[Str "U1" := {["X"; "Y"]}]} ga ∅
      = Home.find_extra_accesses
          (marked_groups <$> {[Str "U1" := {[Str "G1"; Str "GR1"]}]})
          {[Str "U1" := {["X"; "Y"]}]} ga ∅.
Proof.
  apply (unmarked_groups_explain_nothing sample_access).
  split; apply list_elem_of_In; simpl; auto.
Defined.

(** X11. The pie chart never shows a negative share: the users with
    extra access are users of [user_groups], so the number of users with
    standard access is not negative and the two values add up to the
    number of users. *)
Theorem extra_access_pie_values_sound (user_groups : gmap cell (gset cell))
    (user_accesses group_accesses : gmap cell (gset string))
    (public_accesses : gset string) :
  ∃ users_with_standard users_with_extra,
    extra_access_pie_values user_groups
      (Home.find_extra_accesses user_groups user_accesses group_accesses
         public_accesses)
    = [users_with_standard; users_with_extra]
    ∧ (0 ≤ users_with_standard)%Z
    ∧ (0 ≤ users_with_extra)%Z
    ∧ (users_with_standard + users_with_extra = len user_groups)%Z.
Proof.
  unfold extra_access_pie_values. eexists _, _. split; [reflexivity|].
  pose proof (find_extra_accesses_dom user_groups user_accesses group_accesses
                public_accesses) as Hdom.
  apply subseteq_size in Hdom. rewrite !len_map_dom.
  split; [lia|]. split; lia.
Qed.

(** X12. A user without accesses is never reported, and empty inputs
    give an empty result: no user, no result; a user that
    [user_accesses] does not know, or knows with an empty set, has no
    entry. *)
Theorem find_extra_accesses_without_accesses
    (user_groups : gmap cell (gset cell))
    (user_accesses group_accesses : gmap cell (gset string))
    (public_accesses : gset string) :
  Home.find_extra_accesses ∅ user_accesses group_accesses public_accesses = ∅
  ∧ Home.find_extra_accesses user_groups ∅ group_accesses public_accesses = ∅
  ∧ ∀ u, default ∅ (user_accesses !! u) = ∅ →
         Home.find_extra_accesses user_groups user_accesses group_accesses
           public_accesses !! u = None.
Proof.
  assert (Hu : ∀ ua u, default ∅ (ua !! u) = ∅ →
    Home.find_extra_accesses user_groups ua group_accesses public_accesses !! u
    = None).
  { intros ua u Hemp. rewrite find_extra_accesses_lookup. unfold extra_spec.
    destruct (user_groups !! u); [|done].
    rewrite bool_decide_eq_true_2; [done|]. rewrite Hemp. set_solver. }
  split; [apply find_extra_accesses_empty|]. split; [|apply Hu].
  apply map_eq. intros u. rewrite lookup_empty. apply Hu.
  by rewrite lookup_empty.
Qed.

(** "U2" is a user without any access. *)
Lemma find_extra_accesses_without_accesses_witness :
  Home.find_extra_accesses
    {[Str "U1" := {[Str "GR1"]}; Str "U2" := {[Str "GR1"]}]}
    {[Str "U1" := {["X"]}]} {[Str "GR1" := {["Y"]}]} ∅ !! Str "U2" = None.
Proof.
  apply (find_extra_accesses_without_accesses
           {[Str "U1" := {[Str "GR1"]}; Str "U2" := {[Str "GR1"]}]}
           {[Str "U1" := {["X"]}]} {[Str "GR1" := {["Y"]}]} ∅).
  vm_compute. reflexivity.
Defined.

(** X13. The extra accesses of a user grow with the user's accesses and
    shrink when the user joins more groups, when groups are granted
    more, or when more is public. *)
Theorem find_extra_accesses_monotone
    (ug1 ug2 : gmap cell (gset cell))
    (ua1 ua2 ga1 ga2 : gmap cell (gset string)) (pa1 pa2 : gset string)
    (u : cell) :
  (∀ G1, ug1 !! u = Some G1 → ∃ G2, ug2 !! u = Some G2 ∧ G2 ⊆ G1) →
  default ∅ (ua1 !! u) ⊆ default ∅ (ua2 !! u) →
  (∀ g, default ∅ (ga2 !! g) ⊆ default ∅ (ga1 !! g)) →
  pa2 ⊆ pa1 →
  default ∅ (Home.find_extra_accesses ug1 ua1 ga1 pa1 !! u)
  ⊆ default ∅ (Home.find_extra_accesses ug2 ua2 ga2 pa2 !! u).
Proof.
  intros Hug Hua Hga Hpa. rewrite !find_extra_accesses_lookup.
  unfold extra_spec. destruct (ug1 !! u) as [G1|] eqn:H1; [|set_solver].
  destruct (Hug G1 eq_refl) as (G2 & -> & HG).
  assert (Hexp : expected_spec ga2 pa2 G2 ⊆ expected_spec ga1 pa1 G1).
  { intros a. rewrite !elem_of_expected_spec.
    intros [?|(g & S & Hg & HS & Ha)]; [left; set_solver|].
    specialize (Hga g). rewrite HS in Hga. simpl in Hga.
    destruct (ga1 !! g) as [S1|] eqn:HS1; simpl in Hga; [|set_solver].
    right. exists g, S1. set_solver. }
  assert (Hsub : default ∅ (ua1 !! u) ∖ expected_spec ga1 pa1 G1
                 ⊆ default ∅ (ua2 !! u) ∖ expected_spec ga2 pa2 G2)
    by set_solver.
  clear Hug Hga Hexp Hua Hpa H1.
  repeat case_bool_decide; simpl; set_solver.
Qed.

(** One more access for "U1", one group less. *)
Lemma find_extra_accesses_monotone_witness :
  default ∅ (Home.find_extra_accesses {[Str "U1" := {[Str "GR1"]}]}
               {[Str "U1" := {["X"]}]} {[Str "GR1" := {["Y"]}]} ∅
             !! Str "U1")
  ⊆ default ∅ (Home.find_extra_accesses {[Str "U1" := ∅]}
                 {[Str "U1" := {["X"; "Y"]}]} {[Str "GR1" := {["Y"]}]} ∅
               !! Str "U1").
Proof.
  apply find_extra_accesses_monotone.
  - intros G1 HG1. exists ∅.
    split; [apply lookup_singleton_eq | apply empty_subseteq].
  - rewrite !lookup_singleton_eq. simpl. apply union_subseteq_l.
  - intros g. reflexivity.
  - reflexivity.
Defined.

(** X14. Reconciling the extra accesses again changes nothing: what is
    left after the first pass is explained by no group and is not
    public. *)
Theorem find_extra_accesses_idempotent (user_groups : gmap cell (gset cell))
    (user_accesses group_accesses : gmap cell (gset string))
    (public_accesses : gset string) :
  Home.find_extra_accesses user_groups
    (Home.find_extra_accesses user_groups user_accesses group_accesses
       public_accesses)
    group_accesses public_accesses
  = Home.find_extra_accesses user_groups user_accesses group_accesses
      public_accesses.
Proof.
  apply map_eq. intros u.
  rewrite (find_extra_accesses_lookup user_groups
             (Home.find_extra_accesses _ _ _ _)).
  unfold extra_spec at 1. rewrite !find_extra_accesses_lookup.
  unfold extra_spec. destruct (user_groups !! u) as [G|]; [|done].
  set (E := expected_spec group_accesses public_accesses G).
  set (X := default ∅ (user_accesses !! u) ∖ E).
  assert (HXE : X ∖ E = X) by set_solver.
  destruct (decide (X = ∅)) as [HX|HX].
  - rewrite (bool_decide_eq_true_2 (X = ∅)) by done. simpl.
    rewrite bool_decide_eq_true_2; [done | set_solver].
  - rewrite (bool_decide_eq_false_2 (X = ∅)) by done. simpl.
    rewrite HXE. by rewrite bool_decide_eq_false_2.
Qed.

(** X15. In the table of the section "User Access Analysis", for the
    extra accesses found by [find_extra_accesses]: a user is flagged as
    having extra access exactly when its count of extra accesses is
    positive, that count never exceeds the user's access count, and a
    flagged user is a user of [user_groups]. *)
Theorem user_row_consistent (user_groups : gmap cell (gset cell))
    (user_accesses group_accesses : gmap cell (gset string))
    (public_accesses : gset string) (user : cell) :
  let row :=
    user_row user_groups user_accesses
      (Home.find_extra_accesses user_groups user_accesses group_accesses
         public_accesses) user in
  (ur_Has_Extra_Access row = true ↔ (0 < ur_Extra_Access_Count row)%Z)
  ∧ (ur_Extra_Access_Count row ≤ ur_Access_Count row)%Z
  ∧ (ur_Has_Extra_Access row = true → user ∈ dom user_groups).
Proof.
  simpl.
  destruct (Home.find_extra_accesses user_groups user_accesses group_accesses
              public_accesses !! user) as [X|] eqn:HX; simpl.
  - apply find_extra_accesses_lookup_Some in HX as (Hne & Hsub & Hdom).
    split; [|split].
    + split; [intros _; by apply len_set_pos_iff | done].
    + unfold len. apply subseteq_size in Hsub. lia.
    + intros _. by apply elem_of_dom.
  - split; [|split].
    + split; [done|]. intros Hpos%len_set_pos_iff. done.
    + apply len_nonneg.
    + done.
Qed.

(** The row of "U1", which has one extra access out of two. *)
Lemma user_row_consistent_witness :
  let row :=
    user_row {[Str "U1" := {[Str "GR1"]}]} {[Str "U1" := {["X"; "Y"]}]}
      (Home.find_extra_accesses {[Str "U1" := {[Str "GR1"]}]}
         {[Str "U1" := {["X"; "Y"]}]} {[Str "GR1" := {["Y"]}]} ∅)
      (Str "U1") in
  ur_Has_Extra_Access row = true ∧ (0 < ur_Extra_Access_Count row)%Z.
Proof.
  intros row.
  destruct (user_row_consistent {[Str "U1" := {[Str "GR1"]}]}
              {[Str "U1" := {["X"; "Y"]}]} {[Str "GR1" := {["Y"]}]} ∅
              (Str "U1")) as (Hiff & _ & _).
  assert (Hflag : ur_Has_Extra_Access row = true) by (vm_compute; reflexivity).
  split; [exact Hflag|]. apply Hiff. exact Hflag.
Defined.

(** ** What [re.split] keeps *)

Section pieces.

Implicit Types (s t : string) (c : ascii).

#[local] Arguments String.append : simpl nomatch.

Lemma split_from_concat b s :
  concat_pieces (split_from b s) = without_separators s.
Proof.
  revert b. induction s as [|c s IH]; intros b; simpl; [done|].
  destruct (is_sep c).
  - destruct b; simpl; apply IH.
  - specialize (IH false).
    destruct (split_from false s) as [|p ps]; simpl in *; by rewrite <- IH.
Qed.

Lemma split_from_sep_free b s : Forall sep_free (split_from b s).
Proof.
  revert b. induction s as [|c s IH]; intros b; simpl.
  - by repeat constructor.
  - destruct (is_sep c) eqn:Hc.
    + destruct b; [apply IH|]. constructor; [done | apply IH].
    + specialize (IH false).
      destruct (split_from false s) as [|p ps]; [by repeat constructor|].
      apply Forall_cons in IH as [Hp Hps]. by constructor.
Qed.

Lemma concat_pieces_filter (pieces : list string) :
  concat_pieces (List.filter truthy pieces) = concat_pieces pieces.
Proof.
  induction pieces as [|p ps IH]; simpl; [done|].
  destruct p as [|c p]; simpl; [done|]. by rewrite IH.
Qed.

Lemma without_separators_nil_iff s : without_separators s = "" ↔ sep_only s.
Proof.
  induction s as [|c s IH]; simpl; [done|].
  destruct (is_sep c); [|split; [done | by intros [? _]]].
  rewrite IH. naive_solver.
Qed.

Lemma without_separators_sep_free s : sep_free s → without_separators s = s.
Proof.
  induction s as [|c s IH]; simpl; [done|]. intros [-> Hs]. by rewrite IH.
Qed.

Lemma split_from_false_sep_free s : sep_free s → split_from false s = [s].
Proof.
  induction s as [|c s IH]; simpl; [done|]. intros [-> Hs]. by rewrite IH.
Qed.

End pieces.

(** X16. Splitting loses and reorders nothing but the separators: the
    pieces of [re.split], put end to end, are the field without its
    commas and white space, and so are the tokens kept after the empty
    pieces are dropped; no piece holds a comma or a white space, and
    there is always at least one piece. *)
Theorem re_split_keeps_the_rest (s : string) :
  concat_pieces (re_split s) = without_separators s
  ∧ concat_pieces (nonempty_pieces s) = without_separators s
  ∧ Forall sep_free (re_split s)
  ∧ re_split s ≠ [].
Proof.
  unfold nonempty_pieces, re_split.
  split; [apply split_from_concat|].
  split; [by rewrite concat_pieces_filter, split_from_concat|].
  split; [apply split_from_sep_free | apply split_from_not_nil].
Qed.

(** X17. An additional-groups field made of commas and white space only
    gives no group, and only such a field does; a non-empty field
    without comma or white space is one group, itself. *)
Theorem tokens_of_plain_fields (s : string) :
  (nonempty_pieces s = [] ↔ sep_only s)
  ∧ (s ≠ "" → sep_free s → nonempty_pieces s = [s]).
Proof.
  split.
  - assert (Hc : concat_pieces (nonempty_pieces s) = without_separators s).
    { unfold nonempty_pieces, re_split.
      by rewrite concat_pieces_filter, split_from_concat. }
    rewrite <- without_separators_nil_iff, <- Hc.
    split; [by intros ->|].
    pose proof (λ t, proj1 (filter_In truthy t (re_split s))) as Hin.
    fold (nonempty_pieces s) in Hin.
    destruct (nonempty_pieces s) as [|p ps]; [done|].
    destruct (Hin p) as [_ Hp]; [by left|].
    destruct p; [done|]. discriminate.
  - intros Hne Hfree. unfold nonempty_pieces, re_split.
    rewrite split_from_false_sep_free by done. simpl.
    by destruct s.
Qed.

(** The field " , " and the field "B". *)
Lemma tokens_of_plain_fields_witness :
  nonempty_pieces " , " = [] ∧ nonempty_pieces "B" = ["B"].
Proof.
  split.
  - apply (proj1 (tokens_of_plain_fields " , ")). vm_compute. auto.
  - apply (proj2 (tokens_of_plain_fields "B")); [discriminate|].
    vm_compute. auto.
Defined.

(** ** [load_csv]: the delimiter and the column labels *)

Section loading.

Implicit Types (s t pre post : string) (c ch : ascii).

#[local] Arguments String.append : simpl nomatch.

Lemma contains_sample_line ch content :
  ch ≠ "010"%char →
  contains_char ch (sample_line content) = true ↔ on_first_line ch content.
Proof.
  intros Hch. induction content as [|c rest IH]; simpl.
  - split; [done|]. intros ([|? ?] & post & Heq & _); discriminate Heq.
  - destruct (Ascii.eqb_spec c "010"%char) as [->|Hc]; simpl.
    + split; [done|]. intros ([|c0 pre] & post & Heq & Hpre); simpl in *.
      * injection Heq as <- _. done.
      * injection Heq as <- _. by destruct Hpre.
    + destruct (Ascii.eqb_spec ch c) as [->|Hne]; simpl.
      * split; [intros _|done]. by exists "", rest.
      * rewrite IH. split.
        -- intros (pre & post & -> & Hpre). by exists (String c pre), post.
        -- intros ([|c0 pre] & post & Heq & Hpre); simpl in *.
           ++ injection Heq as <- _. done.
           ++ injection Heq as <- ->. exists pre, post. by destruct Hpre.
Qed.

Lemma lstrip_space_only ws s : space_only ws → lstrip (ws +:+ s) = lstrip s.
Proof.
  induction ws as [|c ws IH]; simpl; [done|]. intros [-> Hws]. by apply IH.
Qed.

Lemma lstrip_first_not_space s : first_not_space s → lstrip s = s.
Proof. destruct s as [|c s]; simpl; [done|]. by intros ->. Qed.

Lemma rstrip_space_only ws : space_only ws → rstrip ws = "".
Proof.
  induction ws as [|c ws IH]; simpl; [done|]. intros [-> Hws].
  by rewrite IH.
Qed.

Lemma rstrip_last_not_space s ws :
  last_not_space s → space_only ws → rstrip (s +:+ ws) = s.
Proof.
  intros Hs Hws. induction s as [|c s IH]; simpl.
  - by apply rstrip_space_only.
  - destruct s as [|c' s].
    + simpl in *. rewrite rstrip_space_only by done. by rewrite Hs.
    + rewrite IH by done. done.
Qed.

Lemma remove_quotes_quote_free s : quote_free (remove_quotes s).
Proof.
  induction s as [|c s IH]; simpl; [done|].
  destruct (Ascii.eqb_spec c "034"%char); simpl; [done | by split].
Qed.

Lemma remove_quotes_id s : quote_free s → remove_quotes s = s.
Proof.
  induction s as [|c s IH]; simpl; [done|]. intros [Hc Hs].
  destruct (Ascii.eqb_spec c "034"%char); [done|]. by rewrite IH.
Qed.

Lemma remove_quotes_app s t :
  remove_quotes (s +:+ t) = remove_quotes s +:+ remove_quotes t.
Proof.
  induction s as [|c s IH]; simpl; [done|].
  destruct (Ascii.eqb c "034"%char); simpl; by rewrite IH.
Qed.

End loading.

(** X18. The delimiter is chosen from the first line alone, the tab
    first: it is the tab exactly when a tab occurs before the first line
    feed, the comma exactly when a comma does and no tab does, and it is
    left to pandas exactly when neither does. *)
Theorem delimiter_of_first_line (content : string) :
  (delimiter content = Some "009"%char ↔ on_first_line "009"%char content)
  ∧ (delimiter content = Some ","%char ↔
       ¬ on_first_line "009"%char content ∧ on_first_line ","%char content)
  ∧ (delimiter content = None ↔
       ¬ on_first_line "009"%char content
       ∧ ¬ on_first_line ","%char content).
Proof.
  unfold delimiter.
  rewrite <- (contains_sample_line "009"%char content) by discriminate.
  rewrite <- (contains_sample_line ","%char content) by discriminate.
  destruct (contains_char "009"%char (sample_line content));
    destruct (contains_char ","%char (sample_line content));
    repeat split; try done; try (by intros [? ?]); try (by intros ?).
Qed.

(** X19. A column label is stripped of its outer white space first and
    of its quotes next: for a label made of white space, a core that
    neither starts nor ends with white space, and white space again, the
    clean label is the core without its quotes; it holds no quote, and
    white space that stood inside the quotes stays. *)
Theorem clean_column_name_strips_then_unquotes (ws1 core ws2 : string) :
  space_only ws1 → space_only ws2 →
  first_not_space core → last_not_space core →
  clean_column_name (ws1 +:+ core +:+ ws2) = remove_quotes core
  ∧ quote_free (clean_column_name (ws1 +:+ core +:+ ws2))
  ∧ (quote_free core → clean_column_name (ws1 +:+ core +:+ ws2) = core).
Proof.
  intros Hws1 Hws2 Hfirst Hlast.
  assert (Hclean : clean_column_name (ws1 +:+ core +:+ ws2)
                   = remove_quotes core).
  { unfold clean_column_name, strip. rewrite lstrip_space_only by done.
    destruct core as [|c core].
    - simpl. replace ("" +:+ ws2) with ws2 by done.
      assert (Hl : lstrip ws2 = "").
      { clear -Hws2. induction ws2 as [|c ws2 IH]; simpl; [done|].
        destruct Hws2 as [-> Hws2]. by apply IH. }
      by rewrite Hl.
    - rewrite lstrip_first_not_space by done.
      by rewrite rstrip_last_not_space. }
  split; [done|]. rewrite Hclean.
  split; [apply remove_quotes_quote_free | apply remove_quotes_id].
Qed.

(** The label USER_NAME between quotes and blanks; a blank inside the
    quotes stays. *)
Lemma clean_column_name_strips_then_unquotes_witness :
  clean_column_name
    (" " +:+ String "034" ("USER_NAME" +:+ String "034" "") +:+ "  ")
  = "USER_NAME"
  ∧ clean_column_name
      ("" +:+ String "034" (" USER_NAME" +:+ String "034" "") +:+ "")
    = " USER_NAME".
Proof.
  split.
  - apply (clean_column_name_strips_then_unquotes " "
             (String "034" ("USER_NAME" +:+ String "034" "")) "  ");
      vm_compute; auto.
  - apply (clean_column_name_strips_then_unquotes ""
             (String "034" (" USER_NAME" +:+ String "034" "")) "");
      vm_compute; auto.
Defined.

(** ** The tables of the pages *)

Section tables.

Implicit Types (ug : gmap cell (gset cell)) (ua : gmap cell (gset string))
  (u : cell) (a : string).

Lemma append_rows_inr {A R : Type} (row : A → display_exn + option R)
    (xs : list A) (rs : list R) :
  append_rows row xs = inr rs →
  (∀ r, In r rs ↔ ∃ x, In x xs ∧ row x = inr (Some r))
  ∧ (∀ x, In x xs → ∃ o, row x = inr o).
Proof.
  revert rs. induction xs as [|x xs IH]; intros rs; simpl.
  - intros [= <-]. split; [|done]. intros r. split; [done|].
    by intros (x & [] & _).
  - destruct (row x) as [e|o] eqn:Hx; [done|].
    destruct (append_rows row xs) as [e|rs'] eqn:Hxs; [done|].
    intros [= <-]. destruct (IH rs' eq_refl) as [IH1 IH2]. split.
    + intros r. destruct o as [r0|]; simpl; rewrite IH1; split.
      * intros [<-|(y & Hy & Hr)]; [exists x; auto | exists y; auto].
      * intros (y & [<-|Hy] & Hr); [left; congruence | right; eauto].
      * intros (y & Hy & Hr). exists y; auto.
      * intros (y & [<-|Hy] & Hr); [congruence | eauto].
    + intros y [<-|Hy]; [eauto | by apply IH2].
Qed.

Lemma append_rows_inl {A R : Type} (row : A → display_exn + option R)
    (xs : list A) (e : display_exn) :
  append_rows row xs = inl e → ∃ x, In x xs ∧ row x = inl e.
Proof.
  induction xs as [|x xs IH]; simpl; [done|].
  destruct (row x) as [e'|o] eqn:Hx.
  - intros [= <-]. exists x. auto.
  - destruct (append_rows row xs) as [e'|rs'] eqn:Hxs; [|done].
    intros [= <-]. destruct (IH eq_refl) as (y & Hy & He). exists y. auto.
Qed.

(** When every element gives a row, there are as many rows, in the same
    order. *)
Lemma append_rows_all {A R : Type} (row : A → display_exn + option R)
    (f : A → R) (xs : list A) :
  (∀ x, In x xs → row x = inr (Some (f x))) →
  append_rows row xs = inr (map f xs).
Proof.
  induction xs as [|x xs IH]; intros Hrow; simpl; [done|].
  rewrite Hrow by (by left). rewrite IH; [done|].
  intros y Hy. apply Hrow. by right.
Qed.

Lemma any_selected_true (selected : list string) (S : gset string) :
  any_selected selected S = true ↔ ∃ a, a ∈ S ∧ a ∈ selected.
Proof.
  unfold any_selected. rewrite existsb_exists. split.
  - intros (a & Ha & Hsel). exists a.
    apply list_elem_of_In, elem_of_elements in Ha.
    by apply bool_decide_eq_true in Hsel.
  - intros (a & Ha & Hsel). exists a. split.
    + by apply list_elem_of_In, elem_of_elements.
    + by apply bool_decide_eq_true.
Qed.

Lemma elem_of_all_accesses ua a :
  a ∈ all_accesses ua ↔ ∃ u S, ua !! u = Some S ∧ a ∈ S.
Proof.
  unfold all_accesses.
  apply (map_fold_weak_ind
    (λ (acc : gset string) (m : gmap cell (gset string)),
       a ∈ acc ↔ ∃ u S, m !! u = Some S ∧ a ∈ S)).
  - split; [set_solver|]. intros (u & S & HS & _). by rewrite lookup_empty in HS.
  - intros u S m acc Hu IH. rewrite elem_of_union, IH. split.
    + intros [(u' & S' & HS' & Ha)|Ha].
      * exists u', S'. split; [|done]. rewrite lookup_insert_ne; [done|].
        intros <-. congruence.
      * exists u, S. by rewrite lookup_insert_eq.
    + intros (u' & S' & HS' & Ha). destruct (decide (u = u')) as [<-|Hne].
      * rewrite lookup_insert_eq in HS'. injection HS' as <-. by right.
      * rewrite lookup_insert_ne in HS' by done. left. eauto.
Qed.

Lemma join_sorted_cells_inr (X : gset cell) :
  NaN ∉ X → ∃ joined, join_sorted_cells X = inr joined.
Proof.
  intros HX. unfold join_sorted_cells.
  rewrite bool_decide_eq_false_2 by done. eauto.
Qed.

Lemma join_sorted_cells_inl (X : gset cell) (e : display_exn) :
  join_sorted_cells X = inl e → e = TypeError ∧ NaN ∈ X.
Proof.
  unfold join_sorted_cells. case_bool_decide; [|done]. by intros [= <-].
Qed.

End tables.

(** X20. The filtered report of the export page has one row for each
    user that holds at least one of the selected accesses, and no other
    row; it fails, with a [TypeError], only when the group set of such a
    user holds the missing value. *)
Theorem filtered_data_lists_selected_users
    (user_groups : gmap cell (gset cell))
    (user_accesses : gmap cell (gset string))
    (selected_accesses : list string) :
  match filtered_data user_groups user_accesses selected_accesses with
  | inr rows =>
      NoDup (map fr_User rows)
      ∧ ∀ u, In u (map fr_User rows) ↔
             ∃ S a, user_accesses !! u = Some S ∧ a ∈ S
                    ∧ a ∈ selected_accesses
  | inl e =>
      e = TypeError
      ∧ ∃ u S a G, user_accesses !! u = Some S ∧ a ∈ S
                   ∧ a ∈ selected_accesses
                   ∧ user_groups !! u = Some G ∧ NaN ∈ G
  end.
Proof.
  unfold filtered_data.
  destruct (append_rows _ _) as [e|rows] eqn:Hrows.
  - apply append_rows_inl in Hrows as ([u S] & Hin & Hrow).
    apply list_elem_of_In, elem_of_map_to_list in Hin.
    unfold filtered_row in Hrow.
    destruct (any_selected selected_accesses S) eqn:Hsel; [|done].
    apply any_selected_true in Hsel as (a & Ha & Hsel).
    destruct (join_sorted_cells _) as [e'|joined] eqn:Hj; [|done].
    injection Hrow as <-. apply join_sorted_cells_inl in Hj as [-> HNaN].
    split; [done|].
    destruct (user_groups !! u) as [G|] eqn:HG; simpl in HNaN; [|set_solver].
    by exists u, S, a, G.
  - assert (Hfst : ∀ item r,
      filtered_row user_groups selected_accesses item = inr (Some r) →
      fr_User r = item.1
      ∧ any_selected selected_accesses item.2 = true).
    { intros [u S] r. unfold filtered_row. simpl.
      destruct (any_selected selected_accesses S); [|done].
      destruct (join_sorted_cells _); [done|]. by intros [= <-]. }
    split.
    + pose proof (NoDup_fst_map_to_list user_accesses) as Hnd.
      revert rows Hrows Hnd.
      induction (map_to_list user_accesses) as [|item items IH];
        intros rows Hrows Hnd; simpl in Hrows.
      * injection Hrows as <-. constructor.
      * destruct (filtered_row _ _ item) as [e|o] eqn:Hitem; [done|].
        destruct (append_rows _ items) as [e|rs] eqn:Hitems; [done|].
        injection Hrows as <-.
        apply NoDup_cons in Hnd as [Hnotin Hnd].
        specialize (IH rs eq_refl Hnd).
        destruct o as [r|]; [|done]. simpl. apply NoDup_cons_2; [|done].
        intros Hin. apply Hnotin.
        apply list_elem_of_In, in_map_iff in Hin as (r' & Hr' & Hin).
        apply (append_rows_inr _ _ _ Hitems) in Hin as (item' & Hin' & Hrow').
        apply Hfst in Hitem as [Hu _]. apply Hfst in Hrow' as [Hu' _].
        apply list_elem_of_fmap. exists item'. split; [congruence|].
        by apply list_elem_of_In.
    + destruct (append_rows_inr _ _ _ Hrows) as [Hin Hall]. intros u.
      rewrite in_map_iff. split.
      * intros (r & <- & Hr). apply Hin in Hr as ([u S] & Hitem & Hrow).
        apply Hfst in Hrow as [-> Hsel]. simpl in *.
        apply any_selected_true in Hsel as (a & Ha & Hsel).
        exists S, a. split; [|done].
        by apply elem_of_map_to_list, list_elem_of_In.
      * intros (S & a & HS & Ha & Hsel).
        assert (Hitem : In (u, S) (map_to_list user_accesses))
          by by apply list_elem_of_In, elem_of_map_to_list.
        destruct (Hall _ Hitem) as [o Ho].
        assert (Hany : any_selected selected_accesses S = true)
          by (apply any_selected_true; eauto).
        unfold filtered_row in Ho. rewrite Hany in Ho.
        destruct (join_sorted_cells _) as [e|joined] eqn:Hj; [done|].
        injection Ho as <-.
        eexists. split; [|apply Hin; exists (u, S); split; [done|]].
        2:{ unfold filtered_row. rewrite Hany, Hj. reflexivity. }
        done.
Qed.

(** X21. The multiselect offers an access exactly when some subject
    holds it, each once; so a selection with one offered access never
    gives an empty report: the report has a row, unless building it
    fails. *)
Theorem offered_access_selects_a_row (user_groups : gmap cell (gset cell))
    (user_accesses : gmap cell (gset string))
    (selected_accesses : list string) :
  (∀ a, In a (access_options user_accesses) ↔
        ∃ u S, user_accesses !! u = Some S ∧ a ∈ S)
  ∧ NoDup (access_options user_accesses)
  ∧ (∀ a, In a (access_options user_accesses) →
          a ∈ selected_accesses →
          filtered_data user_groups user_accesses selected_accesses
          ≠ inr []).
Proof.
  assert (Hopt : ∀ a, In a (access_options user_accesses) ↔
                      ∃ u S, user_accesses !! u = Some S ∧ a ∈ S).
  { intros a. unfold access_options, sorted.
    rewrite <- list_elem_of_In, merge_sort_Permutation, elem_of_elements.
    apply elem_of_all_accesses. }
  split; [done|]. split.
  { unfold access_options, sorted. rewrite merge_sort_Permutation.
    apply NoDup_elements. }
  intros a Ha Hsel. apply Hopt in Ha as (u & S & HS & Ha).
  intros Hrows.
  destruct (append_rows_inr _ _ _ Hrows) as [Hin Hall].
  assert (Hitem : In (u, S) (map_to_list user_accesses))
    by by apply list_elem_of_In, elem_of_map_to_list.
  destruct (Hall _ Hitem) as [o Ho].
  assert (Hany : any_selected selected_accesses S = true)
    by (apply any_selected_true; eauto).
  unfold filtered_row in Ho. rewrite Hany in Ho.
  destruct (join_sorted_cells _) as [e|joined] eqn:Hj; [done|].
  injection Ho as <-.
  apply (Hin {| fr_User := u; fr_Groups := joined;
                fr_Accesses := join_sorted S |}).
  exists (u, S). split; [done|]. unfold filtered_row. by rewrite Hany, Hj.
Qed.

(** The access "X" of "U1". *)
Lemma offered_access_selects_a_row_witness :
  In "X" (access_options {[Str "U1" := {["X"; "Y"]}; Str "U2" := {["Y"]}]})
  ∧ filtered_data {[Str "U1" := {[Str "U1"; Str "A"]}]}
      {[Str "U1" := {["X"; "Y"]}; Str "U2" := {["Y"]}]} ["X"] ≠ inr [].
Proof.
  assert (Hin : In "X" (access_options
                 {[Str "U1" := {["X"; "Y"]}; Str "U2" := {["Y"]}]})).
  { vm_compute. auto. }
  split; [exact Hin|].
  apply (proj2 (proj2 (offered_access_selects_a_row
           {[Str "U1" := {[Str "U1"; Str "A"]}]}
           {[Str "U1" := {["X"; "Y"]}; Str "U2" := {["Y"]}]} ["X"])) "X").
  - exact Hin.
  - apply list_elem_of_In. simpl. auto.
Defined.

(** X22. The section "Users with Extra Access Rights" leaves the local
    variable [extra_access_data] unbound exactly when no user has extra
    access, and binds it to a list that is never empty otherwise.  So
    the test [if extra_access_data:] of the section "Export Results"
    cannot be false: on the unbound variable it raises
    [UnboundLocalError], on a bound one it draws the download button.
    Nothing is said of the code between the two sections. *)
Theorem export_results_needs_extra_access
    (user_groups : gmap cell (gset cell))
    (user_accesses extra_accesses : gmap cell (gset string)) :
  (extra_accesses = ∅ →
     extra_access_data user_groups user_accesses extra_accesses = inr None
     ∧ export_results None = inl (UnboundLocalError "extra_access_data"))
  ∧ (∀ binding,
       extra_access_data user_groups user_accesses extra_accesses
       = inr binding →
       (binding = None ↔ extra_accesses = ∅)
       ∧ ∀ rows, binding = Some rows →
           length rows = size extra_accesses
           ∧ rows ≠ []
           ∧ export_results binding = inr true)
  ∧ (extra_accesses ≠ ∅ →
     (∀ u (G : gset cell), user_groups !! u = Some G → NaN ∉ G) →
     ∃ rows,
       extra_access_data user_groups user_accesses extra_accesses
       = inr (Some rows)).
Proof.
  unfold extra_access_data.
  destruct (len extra_accesses =? 0)%Z eqn:Hlen; simpl.
  - apply Z.eqb_eq in Hlen. unfold len in Hlen.
    assert (Hemp : extra_accesses = ∅).
    { apply map_size_empty_iff. lia. }
    split; [done|]. split; [|done].
    intros binding [= <-]. split; [done|]. by intros rows.
  - assert (Hne : extra_accesses ≠ ∅).
    { intros ->. by rewrite len_map_empty in Hlen. }
    assert (Hsome : ∀ item o,
      extra_access_row user_groups user_accesses item = inr o →
      ∃ r, o = Some r).
    { intros [u X] o. unfold extra_access_row.
      destruct (join_sorted_cells _); [done|]. intros [= <-]. eauto. }
    split; [done|]. split.
    + intros binding.
      destruct (append_rows _ _) as [e|rows] eqn:Hrows; [done|].
      intros [= <-]. split; [done|]. intros rows' [= <-].
      assert (Hlen' : length rows = length (map_to_list extra_accesses)).
      { clear -Hrows Hsome. revert rows Hrows.
        induction (map_to_list extra_accesses) as [|item items IH];
          intros rows Hrows; simpl in Hrows.
        - by injection Hrows as <-.
        - destruct (extra_access_row _ _ item) as [e|o] eqn:Hitem; [done|].
          destruct (append_rows _ items) as [e|rs] eqn:Hitems; [done|].
          injection Hrows as <-. apply Hsome in Hitem as [r ->]. simpl.
          by rewrite (IH rs). }
      rewrite length_map_to_list in Hlen'.
      assert (Hpos : size extra_accesses ≠ 0).
      { intros H0. by apply map_size_empty_iff in H0. }
      split; [done|]. split.
      * intros ->. simpl in Hlen'. lia.
      * simpl. destruct rows; [simpl in Hlen'; lia | done].
    + intros _ HNaN.
      rewrite (append_rows_all _
        (λ item, {| er_User := item.1;
                    er_Extra_Accesses := join_sorted item.2;
                    er_Extra_Access_Count := len item.2;
                    er_Assigned_Groups :=
                      join ", " (sorted (omap cell_to_option
                        (elements (default ∅ (user_groups !! item.1)))));
                    er_Group_Count := len (default ∅ (user_groups !! item.1));
                    er_Total_Access_Count :=
                      len (default ∅ (user_accesses !! item.1)) |})).
      * eauto.
      * intros [u X] _. unfold extra_access_row, join_sorted_cells. simpl.
        rewrite bool_decide_eq_false_2; [done|].
        destruct (user_groups !! u) as [G|] eqn:HG; simpl; [by apply (HNaN u)|].
        set_solver.
Qed.

(** No extra access at all, then one for "U1". *)
Lemma export_results_needs_extra_access_witness :
  (extra_access_data {[Str "U1" := {[Str "GR1"]}]} {[Str "U1" := {["X"]}]} ∅
   = inr None
   ∧ export_results None = inl (UnboundLocalError "extra_access_data"))
  ∧ ∃ rows,
      extra_access_data {[Str "U1" := {[Str "GR1"]}]} {[Str "U1" := {["X"]}]}
        {[Str "U1" := {["X"]}]}
      = inr (Some rows)
      ∧ rows ≠ []
      ∧ export_results (Some rows) = inr true.
Proof.
  split.
  - apply (proj1 (export_results_needs_extra_access
                    {[Str "U1" := {[Str "GR1"]}]} {[Str "U1" := {["X"]}]} ∅)).
    reflexivity.
  - destruct (proj2 (proj2 (export_results_needs_extra_access
                {[Str "U1" := {[Str "GR1"]}]} {[Str "U1" := {["X"]}]}
                {[Str "U1" := {["X"]}]}))) as [rows Hrows].
    + compute_done.
    + intros u G HG.
      destruct (decide (u = Str "U1")) as [->|Hne].
      * rewrite lookup_singleton_eq in HG. injection HG as <-. compute_done.
      * by rewrite lookup_singleton_ne in HG.
    + exists rows. split; [exact Hrows|].
      destruct (proj1 (proj2 (export_results_needs_extra_access
                  {[Str "U1" := {[Str "GR1"]}]} {[Str "U1" := {["X"]}]}
                  {[Str "U1" := {["X"]}]})) (Some rows) Hrows)
        as [_ Hbound].
      destruct (Hbound rows eq_refl) as (_ & Hne & Hexp). by split.
Defined.

(** X23. The table of the users with extra access, for the extra
    accesses found by [find_extra_accesses]: one row for each user with
    extra access; in every row the count of extra accesses is at least
    one and at most the total count of accesses, and the user is a user
    of [user_groups]. *)
Theorem extra_access_rows_consistent (user_groups : gmap cell (gset cell))
    (user_accesses group_accesses : gmap cell (gset string))
    (public_accesses : gset string) (rows : list ExtraRow) :
  extra_access_data user_groups user_accesses
    (Home.find_extra_accesses user_groups user_accesses group_accesses
       public_accesses) = inr (Some rows) →
  (∀ u, In u (map er_User rows) ↔
        is_Some (Home.find_extra_accesses user_groups user_accesses
                   group_accesses public_accesses !! u))
  ∧ ∀ row, In row rows →
      (1 ≤ er_Extra_Access_Count row)%Z
      ∧ (er_Extra_Access_Count row ≤ er_Total_Access_Count row)%Z
      ∧ er_User row ∈ dom user_groups
      ∧ er_Group_Count row = len (default ∅ (user_groups !! er_User row)).
Proof.
  set (extra := Home.find_extra_accesses user_groups user_accesses
                  group_accesses public_accesses).
  unfold extra_access_data.
  destruct (negb (len extra =? 0)%Z); [|done].
  destruct (append_rows _ _) as [e|rows'] eqn:Hrows; [done|].
  intros [= <-]. destruct (append_rows_inr _ _ _ Hrows) as [Hin Hall].
  assert (Hrow : ∀ item r,
    extra_access_row user_groups user_accesses item = inr (Some r) →
    er_User r = item.1 ∧ er_Extra_Access_Count r = len item.2
    ∧ er_Total_Access_Count r = len (default ∅ (user_accesses !! item.1))
    ∧ er_Group_Count r = len (default ∅ (user_groups !! item.1))).
  { intros [u X] r. unfold extra_access_row.
    destruct (join_sorted_cells _); [done|]. by intros [= <-]. }
  split.
  - intros u. rewrite in_map_iff. split.
    + intros (r & <- & Hr). apply Hin in Hr as ([u X] & Hitem & Hr).
      apply Hrow in Hr as (-> & _). simpl.
      apply list_elem_of_In, elem_of_map_to_list in Hitem. eauto.
    + intros [X HX].
      assert (Hitem : In (u, X) (map_to_list extra))
        by by apply list_elem_of_In, elem_of_map_to_list.
      destruct (Hall _ Hitem) as [o Ho].
      assert (∃ r, o = Some r) as [r ->].
      { unfold extra_access_row in Ho.
        destruct (join_sorted_cells _); [done|]. injection Ho as <-. eauto. }
      exists r. split; [by apply Hrow in Ho as (-> & _)|].
      apply Hin. by exists (u, X).
  - intros row Hr. apply Hin in Hr as ([u X] & Hitem & Hr).
    apply Hrow in Hr as (Hu & Hc & Ht & Hg). simpl in *.
    apply list_elem_of_In, elem_of_map_to_list in Hitem.
    apply find_extra_accesses_lookup_Some in Hitem as (Hne & Hsub & Hdom).
    rewrite Hu, Hc, Ht, Hg.
    split; [apply len_set_pos_iff in Hne; lia|].
    split; [unfold len; apply subseteq_size in Hsub; lia|].
    split; [by apply elem_of_dom | done].
Qed.

(** "U1" with the extra access "X" out of two. *)
Lemma extra_access_rows_consistent_witness :
  ∃ rows,
    extra_access_data {[Str "U1" := {[Str "GR1"]}]}
      {[Str "U1" := {["X"; "Y"]}]}
      (Home.find_extra_accesses {[Str "U1" := {[Str "GR1"]}]}
         {[Str "U1" := {["X"; "Y"]}]} {[Str "GR1" := {["Y"]}]} ∅)
    = inr (Some rows)
    ∧ ∀ row, In row rows →
        (1 ≤ er_Extra_Access_Count row)%Z
        ∧ (er_Extra_Access_Count row ≤ er_Total_Access_Count row)%Z
        ∧ er_User row ∈ dom ({[Str "U1" := {[Str "GR1"]}]}
                               : gmap cell (gset cell))
        ∧ er_Group_Count row
          = len (default ∅
                   (({[Str "U1" := {[Str "GR1"]}]} : gmap cell (gset cell))
                    !! er_User row)).
Proof.
  eexists. split; [vm_compute; reflexivity|].
  apply (extra_access_rows_consistent {[Str "U1" := {[Str "GR1"]}]}
           {[Str "U1" := {["X"; "Y"]}]} {[Str "GR1" := {["Y"]}]} ∅).
  vm_compute. reflexivity.
Defined.
